(** * Client-side prediction, reconciliation and remote interpolation

    A shallow embedding of the netcode core of the game client:

    - [client/src/components/Player.tsx]: [calculateClientMovement],
      [determineLocalAnimation] and the [useFrame] callback (local
      prediction + reconciliation, remote snapshot buffer + interpolation);
    - [client/src/App.tsx]: [sendInput], the 60 Hz input interval and the
      round-trip bookkeeping of [player.onUpdate]; the key and mouse
      handlers, [determineAnimation] and the player-table callbacks;
    - [client/src/components/Player.tsx] also: the mouse and wheel
      handlers of the camera, the orbital camera position, [playAnimation]
      and the animation effects, the loading counter of [loadAnimations]
      and [retargetClip];
    - [client/src/components/ProjectileManager.tsx]: the frame callback.

    Numbers.  A JavaScript [number] is modelled by a real number ([R]):
    comparisons, [Math.min]/[Math.max] and [Math.sqrt] are the exact ones,
    so rounding, infinities and NaN are outside the model ([x / 0] is an
    unspecified real, not an infinity: the properties that divide have a
    non-zero divisor).  Sequence numbers are integers ([Z]).  [performance.now()] is an input of every
    function that reads the clock.

    State.  The React refs of the component are the fields of a record
    that is threaded through the functions; a closure that mutates refs
    returns the new record next to its result. *)

From Stdlib Require Import Reals Lra Lia ZArith Sorted Ascii.
From stdpp Require Import base decidable option list gmap strings.

#[global] Instance Rlt_decision : RelDecision Rlt := Rlt_dec.
#[global] Instance Rle_decision : RelDecision Rle := Rle_dec.
#[global] Instance Rgt_decision : RelDecision Rgt := Rgt_dec.
#[global] Instance Rge_decision : RelDecision Rge := Rge_dec.
#[global] Instance Req_decision : EqDecision R := Req_dec_T.

Open Scope R_scope.

(** ** three.js value types

    [THREE.Vector3], [THREE.Quaternion] and [THREE.Euler] come from the
    three.js library; the operations below are the ones the component
    calls, written component-wise as the library computes them.  A method
    that mutates its receiver returns the new value here. *)

Module Vector3.

Record t : Type := mk { x : R; y : R; z : R }.

(** [new THREE.Vector3()] *)
Definition zero : t := mk 0 0 0.

Definition add (a v : t) : t := mk (x a + x v) (y a + y v) (z a + z v).
Definition sub (a v : t) : t := mk (x a - x v) (y a - y v) (z a - z v).
Definition multiplyScalar (a : t) (s : R) : t := mk (x a * s) (y a * s) (z a * s).
Definition divideScalar (a : t) (s : R) : t := multiplyScalar a (1 / s).
Definition lengthSq (a : t) : R := x a * x a + y a * y a + z a * z a.
Definition length (a : t) : R := sqrt (lengthSq a).

(** [divideScalar(this.length() || 1)]: a zero length divides by one. *)
Definition normalize (a : t) : t :=
    divideScalar a (if decide (length a = 0) then 1 else length a).

Definition distanceToSquared (a v : t) : R :=
    let dx := x a - x v in
    let dy := y a - y v in
    let dz := z a - z v in
    dx * dx + dy * dy + dz * dz.
Definition distanceTo (a v : t) : R := sqrt (distanceToSquared a v).

(** [this.lerp(v, alpha)]: [this.x += (v.x - this.x) * alpha], ... *)
Definition lerp (a v : t) (alpha : R) : t :=
    mk (x a + (x v - x a) * alpha)
       (y a + (y v - y a) * alpha)
       (z a + (z v - z a) * alpha).

(** [target.lerpVectors(v1, v2, alpha)] *)
Definition lerpVectors (v1 v2 : t) (alpha : R) : t :=
    mk (x v1 + (x v2 - x v1) * alpha)
       (y v1 + (y v2 - y v1) * alpha)
       (z v1 + (z v2 - z v1) * alpha).

Definition setY (a : t) (ny : R) : t := mk (x a) ny (z a).

End Vector3.

Module Quaternion.

Record t : Type := mk { x : R; y : R; z : R; w : R }.

(** [setFromAxisAngle(axis, angle)], the axis being normalized. *)
Definition setFromAxisAngle (axis : Vector3.t) (angle : R) : t :=
    let halfAngle := angle / 2 in
    let s := sin halfAngle in
    mk (Vector3.x axis * s) (Vector3.y axis * s) (Vector3.z axis * s)
       (cos halfAngle).

End Quaternion.

(** [v.applyQuaternion(q)]: [v + q.w * t + cross(q.xyz, t)] with
    [t = 2 * cross(q.xyz, v)]. *)
Definition applyQuaternion (v : Vector3.t) (q : Quaternion.t) : Vector3.t :=
  let vx := Vector3.x v in
  let vy := Vector3.y v in
  let vz := Vector3.z v in
  let qx := Quaternion.x q in
  let qy := Quaternion.y q in
  let qz := Quaternion.z q in
  let qw := Quaternion.w q in
  let tx := 2 * (qy * vz - qz * vy) in
  let ty := 2 * (qz * vx - qx * vz) in
  let tz := 2 * (qx * vy - qy * vx) in
  Vector3.mk (vx + qw * tx + qy * tz - qz * ty)
             (vy + qw * ty + qz * tx - qx * tz)
             (vz + qw * tz + qx * ty - qy * tx).

(** [v.applyAxisAngle(axis, angle)] *)
Definition applyAxisAngle (v axis : Vector3.t) (angle : R) : Vector3.t :=
  applyQuaternion v (Quaternion.setFromAxisAngle axis angle).

Module Euler.
(** Only the three angles; the order is ['YXZ'] throughout. *)
Record t : Type := mk { x : R; y : R; z : R }.
End Euler.

(** ** Data of the client *)

Module Input.
(** [InputState] of the generated bindings. *)
Record InputState : Type := mk {
    forward : bool;
    backward : bool;
    left : bool;
    right : bool;
    sprint : bool;
    jump : bool;
    attack : bool;
    castSpell : bool;
    sequence : Z
  }.

#[global] Instance InputState_eq_dec : EqDecision InputState.
Proof. solve_decision. Defined.
End Input.
Abbreviation InputState := Input.InputState.

(** The fields of [PlayerData] the frame callback and the update callback
    read. *)
Record PlayerData : Type := mkPlayerData {
  position : Vector3.t;
  rotation : Vector3.t;
  lastInputSeq : Z
}.

(** An entry of [remotePositionBuffer]. *)
Record Snapshot : Type := mkSnapshot {
  pos : Vector3.t;
  timestamp : R
}.

(** The refs of [PlayerComponent] that prediction, reconciliation and
    interpolation read or write.  [groupPosition] is
    [group.current.position]; the group's orientation, the camera and the
    diagnostic counters are not modelled. *)
Record PlayerRefs : Type := mkPlayerRefs {
  localPositionRef : Vector3.t;
  localRotationRef : Euler.t;
  verticalVelocity : R;
  prevJumpRef : bool;
  remotePositionBuffer : list Snapshot;
  remoteTargetPosition : Vector3.t;
  groupPosition : Vector3.t
}.

Definition set_localPositionRef (r : PlayerRefs) (p : Vector3.t) : PlayerRefs :=
  mkPlayerRefs p (localRotationRef r) (verticalVelocity r) (prevJumpRef r)
    (remotePositionBuffer r) (remoteTargetPosition r) (groupPosition r).

Definition set_verticalVelocity (r : PlayerRefs) (v : R) : PlayerRefs :=
  mkPlayerRefs (localPositionRef r) (localRotationRef r) v (prevJumpRef r)
    (remotePositionBuffer r) (remoteTargetPosition r) (groupPosition r).

Definition set_prevJumpRef (r : PlayerRefs) (b : bool) : PlayerRefs :=
  mkPlayerRefs (localPositionRef r) (localRotationRef r) (verticalVelocity r) b
    (remotePositionBuffer r) (remoteTargetPosition r) (groupPosition r).

Definition set_remotePositionBuffer (r : PlayerRefs) (b : list Snapshot) : PlayerRefs :=
  mkPlayerRefs (localPositionRef r) (localRotationRef r) (verticalVelocity r)
    (prevJumpRef r) b (remoteTargetPosition r) (groupPosition r).

Definition set_remoteTargetPosition (r : PlayerRefs) (p : Vector3.t) : PlayerRefs :=
  mkPlayerRefs (localPositionRef r) (localRotationRef r) (verticalVelocity r)
    (prevJumpRef r) (remotePositionBuffer r) p (groupPosition r).

Definition set_groupPosition (r : PlayerRefs) (p : Vector3.t) : PlayerRefs :=
  mkPlayerRefs (localPositionRef r) (localRotationRef r) (verticalVelocity r)
    (prevJumpRef r) (remotePositionBuffer r) (remoteTargetPosition r) p.

(** ** Constants of [Player.tsx] *)

Definition PLAYER_SPEED : R := 7.5.
Definition SPRINT_MULTIPLIER : R := 1.8.
Definition GRAVITY : R := -6.0.
Definition JUMP_FORCE : R := 9.0.
Definition POSITION_RECONCILE_THRESHOLD : R := 0.2.
Definition FIXED_DELTA : R := 1 / 60.

Module ANIMATIONS.
Definition IDLE : string := "idle".
Definition JUMP : string := "jump".
Definition ATTACK : string := "attack1".
Definition CAST : string := "cast".
End ANIMATIONS.

(** ** Local prediction ([Player.tsx], [calculateClientMovement]) *)

(** The guard of the jump impulse: the key is down, it was not down on the
    previous call, and the player is on the ground. *)
Definition jumpRisingEdge (refs : PlayerRefs) (currentPos : Vector3.t)
    (inputState : InputState) : bool :=
  Input.jump inputState && negb (prevJumpRef refs)
  && bool_decide (Vector3.y currentPos <= 0.01).

(** The [forward] and [right] vectors of [calculateClientMovement]: the
    unit vectors [-z] and [+x] turned about the [y] axis by the yaw. *)
Definition forwardVector (playerYaw : R) : Vector3.t :=
  applyAxisAngle (Vector3.mk 0 0 (-1)) (Vector3.mk 0 1 0) playerYaw.

Definition rightVector (playerYaw : R) : Vector3.t :=
  applyAxisAngle (Vector3.mk 1 0 0) (Vector3.mk 0 1 0) playerYaw.

(** [speed] of [calculateClientMovement]. *)
Definition moveSpeed (inputState : InputState) : R :=
  if Input.sprint inputState then PLAYER_SPEED * SPRINT_MULTIPLIER
  else PLAYER_SPEED.

(** [worldMoveVector] of [calculateClientMovement], after the scaling by
    [speed * delta]. *)
Definition worldMoveVector (playerYaw : R) (inputState : InputState)
    (delta : R) : Vector3.t :=
  let speed := moveSpeed inputState in
  let forward := forwardVector playerYaw in
  let right := rightVector playerYaw in
  let v0 := Vector3.zero in
  let v1 := if Input.forward inputState then Vector3.add v0 forward else v0 in
  let v2 := if Input.backward inputState then Vector3.sub v1 forward else v1 in
  let v3 := if Input.left inputState then Vector3.sub v2 right else v2 in
  let v4 := if Input.right inputState then Vector3.add v3 right else v3 in
  let v5 :=
    if decide (Vector3.lengthSq v4 > 1.1) then Vector3.normalize v4 else v4 in
  Vector3.multiplyScalar v5 (speed * delta).

(** [calculateClientMovement(currentPos, currentRot, inputState, delta)]:
    the returned position, and the refs after the call (the closure
    writes [verticalVelocity] and [prevJumpRef]). *)
Definition calculateClientMovement (refs : PlayerRefs) (currentPos : Vector3.t)
    (currentRot : Euler.t) (inputState : InputState) (delta : R)
    : Vector3.t * PlayerRefs :=
  let hasInput :=
    Input.forward inputState || Input.backward inputState
    || Input.left inputState || Input.right inputState in
  if negb hasInput && negb (Input.jump inputState)
     && bool_decide (Vector3.y currentPos <= 0)
  then (currentPos, refs)
  else
    let move := worldMoveVector (Euler.y currentRot) inputState delta in
    let refs1 :=
      set_verticalVelocity refs (verticalVelocity refs + GRAVITY * delta) in
    let refs2 :=
      if jumpRisingEdge refs1 currentPos inputState
      then set_verticalVelocity refs1 JUMP_FORCE else refs1 in
    let refs3 := set_prevJumpRef refs2 (Input.jump inputState) in
    let newPos0 := Vector3.add currentPos move in
    let newPos :=
      Vector3.setY newPos0 (Vector3.y newPos0 + verticalVelocity refs3 * delta) in
    if decide (Vector3.y newPos < 0)
    then (Vector3.setY newPos 0, set_verticalVelocity refs3 0)
    else (newPos, refs3).

(** The [direction] variable of [determineLocalAnimation]. *)
Definition determineDirection (forward backward left right : bool) : string :=
  if forward && negb backward then "forward"
  else if backward && negb forward then "back"
  else if left && negb right then "left"
  else if right && negb left then "right"
  else if forward && left then "left"
  else if forward && right then "right"
  else if backward && left then "left"
  else if backward && right then "right"
  else "forward".

(** [determineLocalAnimation(input, isGrounded)]; a missing input is
    [None]. *)
Definition determineLocalAnimation (input : option InputState)
    (isGrounded : bool) : string :=
  match input with
  | None => ANIMATIONS.IDLE
  | Some input =>
    if Input.attack input then ANIMATIONS.ATTACK
    else if Input.castSpell input then ANIMATIONS.CAST
    else if negb isGrounded then ANIMATIONS.JUMP
    else if Input.jump input then ANIMATIONS.JUMP
    else
      let isMoving :=
        Input.forward input || Input.backward input
        || Input.left input || Input.right input in
      if negb isMoving then ANIMATIONS.IDLE
      else
        let direction :=
          determineDirection (Input.forward input) (Input.backward input)
            (Input.left input) (Input.right input) in
        let moveType := if Input.sprint input then "run" else "walk" in
        moveType +:+ "-" +:+ direction
  end.

(** ** Reconciliation ([useFrame], local branch) *)

(** The three tiers applied to [localPositionRef.current] against
    [serverPos]. *)
Definition reconcile (localPosition serverPos : Vector3.t) : Vector3.t :=
  let distError := Vector3.distanceTo localPosition serverPos in
  if decide (distError > 1.0) then serverPos
  else if decide (distError > POSITION_RECONCILE_THRESHOLD) then
    let lerpFactor := Rmin 0.3 (0.15 + distError * 0.3) in
    Vector3.lerp localPosition serverPos lerpFactor
  else Vector3.lerp localPosition serverPos 0.05.

(** The prediction half of the local branch: the call of
    [calculateClientMovement] with the fixed delta and the copy of its
    result into [localPositionRef]. *)
Definition predictStep (refs : PlayerRefs) (currentInput : InputState)
    : PlayerRefs :=
  let (predictedPosition, refs') :=
    calculateClientMovement refs (localPositionRef refs)
      (localRotationRef refs) currentInput FIXED_DELTA in
  set_localPositionRef refs' predictedPosition.

(** [new THREE.Vector3(playerData.position.x, playerData.position.y,
    playerData.position.z)] *)
Definition serverPositionOf (playerData : PlayerData) : Vector3.t :=
  Vector3.mk (Vector3.x (position playerData))
             (Vector3.y (position playerData))
             (Vector3.z (position playerData)).

(** The reconciliation half, against the position of [playerData]. *)
Definition reconcileStep (refs : PlayerRefs) (playerData : PlayerData)
    : PlayerRefs :=
  let serverPos := serverPositionOf playerData in
  set_localPositionRef refs (reconcile (localPositionRef refs) serverPos).

(** The local branch of the frame callback: prediction, reconciliation,
    and the copy of the reconciled position to the rendered group.  The
    animation it then plays is chosen by [determineLocalAnimation]. *)
Definition localFrame (refs : PlayerRefs) (currentInput : InputState)
    (playerData : PlayerData) : PlayerRefs :=
  let refs1 := predictStep refs currentInput in
  let refs2 := reconcileStep refs1 playerData in
  set_groupPosition refs2 (localPositionRef refs2).

(** ** Remote interpolation ([useFrame], remote branch) *)

(** The buffer update: the new server position is pushed when the buffer
    is empty or the position moved by more than 0.001 from the last entry,
    and the first entry is shifted out when the length exceeds 10. *)
Definition pushSnapshot (buffer : list Snapshot) (serverPosition : Vector3.t)
    (now : R) : list Snapshot :=
  let changed :=
    match last buffer with
    | None => true
    | Some l => bool_decide (Vector3.distanceTo serverPosition (pos l) > 0.001)
    end in
  if changed then
    let buffer' := buffer ++ [mkSnapshot serverPosition now] in
    if decide (10 < length buffer')%nat then tail buffer' else buffer'
  else buffer.

(** The [while] loop that looks for the pair to interpolate between:
    [rest] is the buffer from index [i] on, and the loop advances while
    there is a next entry whose timestamp is at most [renderTime]. *)
Fixpoint scanIndex (rest : list Snapshot) (renderTime : R) (i : nat) : nat :=
  match rest with
  | _ :: ((snap1 :: _) as rest') =>
    if decide (timestamp snap1 <= renderTime)
    then scanIndex rest' renderTime (S i)
    else i
  | _ => i
  end.

(** The value written to [remoteTargetPosition].  Reading a buffer entry
    that does not exist throws in the source; that is [None] here. *)
Definition interpolateTarget (buffer : list Snapshot)
    (serverPosition : Vector3.t) (renderTime : R) : option Vector3.t :=
  if decide (2 <= length buffer)%nat then
    let i := scanIndex buffer renderTime 0 in
    if decide (i < length buffer - 1)%nat then
      snap0 ← buffer !! i;
      snap1 ← buffer !! (i + 1)%nat;
      let t :=
        (renderTime - timestamp snap0) / (timestamp snap1 - timestamp snap0) in
      Some (Vector3.lerpVectors (pos snap0) (pos snap1) (Rmin 1 (Rmax 0 t)))
    else
      pos <$> buffer !! (length buffer - 1)%nat
  else if decide (length buffer = 1%nat) then
    pos <$> buffer !! 0%nat
  else Some serverPosition.

(** The remote branch of the frame callback; [dt] is the clamped frame
    time.  [None] when a buffer read throws. *)
Definition remoteFrame (refs : PlayerRefs) (playerData : PlayerData)
    (now dt : R) : option PlayerRefs :=
  let serverPosition := serverPositionOf playerData in
  let refs1 :=
    set_remotePositionBuffer refs
      (pushSnapshot (remotePositionBuffer refs) serverPosition now) in
  let renderTime := now - 100 in
  target ← interpolateTarget (remotePositionBuffer refs1) serverPosition renderTime;
  let refs2 := set_remoteTargetPosition refs1 target in
  Some (set_groupPosition refs2
          (Vector3.lerp (groupPosition refs2) target (Rmin 1 (dt * 15)))).

(** The frame callback: [ready] is [group.current && modelLoaded]. *)
Definition useFrame (refs : PlayerRefs) (ready isLocalPlayer : bool)
    (currentInput : option InputState) (playerData : PlayerData)
    (now delta : R) : option PlayerRefs :=
  let dt := Rmin delta (1 / 30) in
  if negb ready then Some refs
  else
    match isLocalPlayer, currentInput with
    | true, Some input => Some (localFrame refs input playerData)
    | _, _ => remoteFrame refs playerData now dt
    end.

(** Snapshot arrivals of one remote entity, one per frame: the positions
    and the clock readings. *)
Definition feedSnapshots (buffer : list Snapshot)
    (arrivals : list (Vector3.t * R)) : list Snapshot :=
  foldl (fun b a => pushSnapshot b (fst a) (snd a)) buffer arrivals.

(** ** Input sending and round-trip bookkeeping ([App.tsx]) *)

Module App.

(** The refs of [App] behind [sendInput] and [player.onUpdate];
    [rttSamples] is [window.rttSamples], [outbox] the inputs handed to the
    [updatePlayerInput] reducer, oldest first. *)
Record Refs : Type := mkRefs {
  currentInputRef : InputState;
  lastSentInputState : option InputState;
  inputTimestampsRef : gmap Z R;
  rttSamples : list R;
  outbox : list InputState
}.

Definition initialInput : InputState :=
  Input.mk false false false false false false false false 0.

Definition initial : Refs := mkRefs initialInput None ∅ [] [].

(** [sendInput(currentInputState)] at clock reading [now].  The input is
    sent when a field differs from the last sent one (nothing sent yet:
    every field differs). *)
Definition sendInput (refs : Refs) (connected : bool)
    (currentInputState : InputState) (now : R) : Refs :=
  if negb connected then refs
  else
    let safeInputState := currentInputState in
    let changed :=
      match lastSentInputState refs with
      | None => true
      | Some l => bool_decide (safeInputState ≠ l)
      end in
    if changed then
      let samples :=
        if decide (Input.sequence safeInputState `mod` 60 = 0)%Z
        then [] else rttSamples refs in
      mkRefs (currentInputRef refs) (Some safeInputState)
        (<[Input.sequence safeInputState := now]> (inputTimestampsRef refs))
        samples
        (outbox refs ++ [safeInputState])
    else refs.

(** One run of the 60 Hz interval callback. *)
Definition intervalTick (refs : Refs) (connected : bool) (now : R) : Refs :=
  if negb connected then refs
  else
    let i := currentInputRef refs in
    let input :=
      Input.mk (Input.forward i) (Input.backward i) (Input.left i)
        (Input.right i) (Input.sprint i) (Input.jump i) (Input.attack i)
        (Input.castSpell i) (Input.sequence i + 1) in
    let refs' :=
      mkRefs input (lastSentInputState refs) (inputTimestampsRef refs)
        (rttSamples refs) (outbox refs) in
    sendInput refs' connected input now.

(** The round-trip part of [player.onUpdate] for the local player: a
    sequence of 0 and a timestamp of 0 are falsy. *)
Definition onUpdate (refs : Refs) (newPlayer : PlayerData) (now : R) : Refs :=
  let seq := lastInputSeq newPlayer in
  if decide (seq = 0%Z) then refs
  else
    match inputTimestampsRef refs !! seq with
    | Some sentTime =>
      if decide (sentTime = 0) then refs
      else
        let rtt := now - sentTime in
        let m1 := delete seq (inputTimestampsRef refs) in
        let m2 :=
          if decide (100 < size m1)%nat
          then delete (seq - 100)%Z m1 else m1 in
        mkRefs (currentInputRef refs) (lastSentInputState refs) m2
          (rttSamples refs ++ [rtt]) (outbox refs)
    | None => refs
    end.

(** [n] interval ticks in a row with no update from the server in
    between; [clock k] is the clock reading at tick [k]. *)
Fixpoint runTicks (refs : Refs) (clock : nat → R) (n : nat) : Refs :=
  match n with
  | O => refs
  | S k => intervalTick (runTicks refs clock k) true (clock k)
  end.

(** [determineAnimation(input)]: the animation name sent to the server
    with the input. *)
Definition determineAnimation (input : InputState) : string :=
  if Input.attack input then "attack1"
  else if Input.castSpell input then "cast"
  else if Input.jump input then "jump"
  else
    let forward := Input.forward input in
    let backward := Input.backward input in
    let left := Input.left input in
    let right := Input.right input in
    let isMoving := forward || backward || left || right in
    if negb isMoving then "idle"
    else
      let direction :=
        if forward && negb backward then "forward"
        else if backward && negb forward then "back"
        else if left && negb right then "left"
        else if right && negb left then "right"
        else if forward && left then "left"
        else if forward && right then "right"
        else if backward && left then "left"
        else if backward && right then "right"
        else "forward" in
      let moveType := if Input.sprint input then "run" else "walk" in
      moveType +:+ "-" +:+ direction.

(** The values of [keyMap]: the fields of the input a key drives. *)
Inductive Action : Type :=
  | forward | backward | left | right | sprint | jump.

(** [keyMap[code]]; a code that is not in the map is [None]. *)
Definition keyMap (code : string) : option Action :=
  if decide (code = "KeyW") then Some forward
  else if decide (code = "KeyS") then Some backward
  else if decide (code = "KeyA") then Some left
  else if decide (code = "KeyD") then Some right
  else if decide (code = "ShiftLeft") then Some sprint
  else if decide (code = "Space") then Some jump
  else None.

(** [input[action]] and [input[action] = value]. *)
Definition getAction (input : InputState) (action : Action) : bool :=
  match action with
  | forward => Input.forward input
  | backward => Input.backward input
  | left => Input.left input
  | right => Input.right input
  | sprint => Input.sprint input
  | jump => Input.jump input
  end.

Definition setAction (input : InputState) (action : Action) (value : bool)
    : InputState :=
  match action with
  | forward =>
    Input.mk value (Input.backward input) (Input.left input)
      (Input.right input) (Input.sprint input) (Input.jump input)
      (Input.attack input) (Input.castSpell input) (Input.sequence input)
  | backward =>
    Input.mk (Input.forward input) value (Input.left input)
      (Input.right input) (Input.sprint input) (Input.jump input)
      (Input.attack input) (Input.castSpell input) (Input.sequence input)
  | left =>
    Input.mk (Input.forward input) (Input.backward input) value
      (Input.right input) (Input.sprint input) (Input.jump input)
      (Input.attack input) (Input.castSpell input) (Input.sequence input)
  | right =>
    Input.mk (Input.forward input) (Input.backward input) (Input.left input)
      value (Input.sprint input) (Input.jump input)
      (Input.attack input) (Input.castSpell input) (Input.sequence input)
  | sprint =>
    Input.mk (Input.forward input) (Input.backward input) (Input.left input)
      (Input.right input) value (Input.jump input)
      (Input.attack input) (Input.castSpell input) (Input.sequence input)
  | jump =>
    Input.mk (Input.forward input) (Input.backward input) (Input.left input)
      (Input.right input) (Input.sprint input) value
      (Input.attack input) (Input.castSpell input) (Input.sequence input)
  end.

Definition set_currentInputRef (refs : Refs) (input : InputState) : Refs :=
  mkRefs input (lastSentInputState refs) (inputTimestampsRef refs)
    (rttSamples refs) (outbox refs).

(** [handleKeyDown(event)] with [event.code] and [event.repeat]. *)
Definition handleKeyDown (refs : Refs) (code : string) (repeat : bool) : Refs :=
  if repeat then refs
  else
    match keyMap code with
    | Some action =>
      if negb (getAction (currentInputRef refs) action)
      then set_currentInputRef refs
             (setAction (currentInputRef refs) action true)
      else refs
    | None => refs
    end.

(** [handleKeyUp(event)] *)
Definition handleKeyUp (refs : Refs) (code : string) : Refs :=
  match keyMap code with
  | Some action =>
    if getAction (currentInputRef refs) action
    then set_currentInputRef refs
           (setAction (currentInputRef refs) action false)
    else refs
  | None => refs
  end.



(** The player table as the component holds it: the [players] map, keyed
    by the hexadecimal identity, and [localPlayer]. *)
Record Tables : Type := mkTables {
  players : gmap string PlayerData;
  localPlayer : option PlayerData
}.

(** The [identityRef.current && id === identityRef.current] test of the
    table callbacks, on hexadecimal identities. *)
Definition isLocal (identity : option string) (id : string) : bool :=
  match identity with
  | Some me => bool_decide (id = me)
  | None => false
  end.

(** [conn.db.player.onInsert] and [onUpdate] (the table part): [id] is
    [player.identity.toHexString()]. *)
Definition playerOnInsert (identity : option string) (t : Tables)
    (id : string) (player : PlayerData) : Tables :=
  mkTables (<[id := player]> (players t))
    (if isLocal identity id then Some player else localPlayer t).

Definition playerOnUpdate (identity : option string) (t : Tables)
    (id : string) (newPlayer : PlayerData) : Tables :=
  mkTables (<[id := newPlayer]> (players t))
    (if isLocal identity id then Some newPlayer else localPlayer t).

(** [conn.db.player.onDelete] *)
Definition playerOnDelete (identity : option string) (t : Tables)
    (id : string) : Tables :=
  mkTables (delete id (players t))
    (if isLocal identity id then None else localPlayer t).

(** [onDisconnect], for the two states above. *)
Definition onDisconnect (t : Tables) : Tables := mkTables ∅ None.

(** The events of the player table. *)
Inductive TableEvent : Type :=
  | Inserted (id : string) (player : PlayerData)
  | Updated (id : string) (player : PlayerData)
  | Deleted (id : string)
  | Disconnected.

Definition tableStep (identity : option string) (t : Tables) (e : TableEvent)
    : Tables :=
  match e with
  | Inserted id player => playerOnInsert identity t id player
  | Updated id player => playerOnUpdate identity t id player
  | Deleted id => playerOnDelete identity t id
  | Disconnected => onDisconnect t
  end.




End App.

(** ** The tie-break table of the specification

    Written from the specification's words, to be compared with
    [worldMoveVector] and [determineDirection]. *)

Inductive Direction : Type := DForward | DBack | DLeft | DRight.

(** forward-only→forward, backward-only→back, left-only→left,
    right-only→right, forward+left→left, forward+right→right,
    backward+left→left, backward+right→right; the table says nothing on
    the other combinations. *)
Definition tieBreakTable (forward backward left right : bool)
    : option Direction :=
  match forward, backward, left, right with
  | true, false, false, false => Some DForward
  | false, true, false, false => Some DBack
  | false, false, true, false => Some DLeft
  | false, false, false, true => Some DRight
  | true, false, true, false => Some DLeft
  | true, false, false, true => Some DRight
  | false, true, true, false => Some DLeft
  | false, true, false, true => Some DRight
  | _, _, _, _ => None
  end.

Definition directionLabel (d : Direction) : string :=
  match d with
  | DForward => "forward"
  | DBack => "back"
  | DLeft => "left"
  | DRight => "right"
  end.

(** The unit vector of a direction for a player facing [playerYaw]. *)
Definition directionVector (playerYaw : R) (d : Direction) : Vector3.t :=
  match d with
  | DForward => forwardVector playerYaw
  | DBack => Vector3.multiplyScalar (forwardVector playerYaw) (-1)
  | DLeft => Vector3.multiplyScalar (rightVector playerYaw) (-1)
  | DRight => rightVector playerYaw
  end.

(** ** Notions the properties are stated with *)

(** The predicted state the specification names: position, vertical
    velocity and yaw. *)
Definition predictedState (refs : PlayerRefs) : Vector3.t * R * R :=
  (localPositionRef refs, verticalVelocity refs, Euler.y (localRotationRef refs)).

(** The last [n] entries of a list, in order. *)
Definition keepLast {A : Type} (n : nat) (l : list A) : list A :=
  drop (length l - n) l.

Definition toSnapshot (a : Vector3.t * R) : Snapshot :=
  mkSnapshot (fst a) (snd a).

(** Every arrival is more than 0.001 away from the one before it ([prev]
    is the position before the first one, if any). *)
Fixpoint eachMoved (prev : option Vector3.t) (arrivals : list (Vector3.t * R))
    : Prop :=
  match arrivals with
  | [] => True
  | a :: rest =>
    match prev with
    | None => True
    | Some p => Vector3.distanceTo (fst a) p > 0.001
    end ∧ eachMoved (Some (fst a)) rest
  end.

(** Timestamps do not decrease along the buffer (entries are stamped with
    a monotonic clock as they arrive). *)
Definition sortedByTime (buffer : list Snapshot) : Prop :=
  ∀ (i j : nat) (s s' : Snapshot),
    (i ≤ j)%nat → buffer !! i = Some s → buffer !! j = Some s' →
    timestamp s <= timestamp s'.

(** ** Sample data *)

(** A player at rest at the origin, facing yaw 0, with an empty buffer;
    [held] is the previous-jump flag. *)
Definition idleRefs (held : bool) : PlayerRefs :=
  mkPlayerRefs (Vector3.mk 0 0 0) (Euler.mk 0 0 0) 0 held []
    (Vector3.mk 0 0 0) (Vector3.mk 0 0 0).

(** An input with the given movement keys, no action, sequence 0. *)
Definition keys (forward backward left right sprint jump : bool)
    : InputState :=
  Input.mk forward backward left right sprint jump false false 0.

(** Fifteen arrivals, one unit apart along [x], 16 ms apart. *)
Definition marchArrivals : list (Vector3.t * R) :=
  (fun k : R => (Vector3.mk k 0 0, 16 * k))
    <$> [1; 2; 3; 4; 5; 6; 7; 8; 9; 10; 11; 12; 13; 14; 15].

(** The two snapshots of the specification's example. *)
Definition exampleBuffer : list Snapshot :=
  [mkSnapshot (Vector3.mk 0 0 0) 1000; mkSnapshot (Vector3.mk 10 0 0) 1100].

(** ** Animations ([Player.tsx])

    The keys of [animKeys] in [loadAnimations]: the names an animation
    file is registered for. *)
Definition animKeys : list string :=
  ["idle"; "walk-forward"; "walk-back"; "walk-left"; "walk-right";
   "run-forward"; "run-back"; "run-left"; "run-right"; "jump"; "attack1";
   "cast"; "damage"; "death"].

(** The loop mode [loadAnimationFile] gives an action: [true] is
    [LoopRepeat], [false] is [LoopOnce] with [clampWhenFinished]. *)
Definition loopsForever (name : string) : bool :=
  bool_decide (name = "idle") || String.prefix "walk-" name
  || String.prefix "run-" name.

(** What [playAnimation] asks of the animation actions. *)
Inductive AnimationCommand : Type :=
  | FadeOut (name : string)
  | Play (name : string).

(** [playAnimation(name, crossfadeDuration)]: [mixer] says whether the
    mixer exists, [animations] holds the names with a loaded action (own
    keys of the [animations] record), [currentAnimation] is the state.
    The result is the new [currentAnimation] and the commands issued;
    the fade duration only parameterizes the commands and is left out.
    Two names have the same action only when they are equal. *)
Definition playAnimation (mixer : bool) (animations : gset string)
    (currentAnimation : string) (name : string)
    : string * list AnimationCommand :=
  if negb mixer then (currentAnimation, [])
  else
    let resolved :=
      if bool_decide (name ∈ animations) then Some name
      else if bool_decide (name ≠ ANIMATIONS.IDLE)
              && bool_decide (ANIMATIONS.IDLE ∈ animations)
           then Some ANIMATIONS.IDLE
           else None in
    match resolved with
    | None => (currentAnimation, [])
    | Some name' =>
      let fade :=
        if bool_decide (currentAnimation ∈ animations)
           && bool_decide (currentAnimation ≠ name')
        then [FadeOut currentAnimation] else [] in
      (name', fade ++ [Play name'])
    end.

(** The animation part of the local branch of the frame callback: the
    predicted animation is played when it differs from the current
    one. *)
Definition localAnimationStep (mixer : bool) (animations : gset string)
    (currentAnimation : string) (localPosition : Vector3.t)
    (currentInput : InputState) : string * list AnimationCommand :=
  let isGrounded := bool_decide (Vector3.y localPosition <= 0.01) in
  let predictedAnim := determineLocalAnimation (Some currentInput) isGrounded in
  if bool_decide (predictedAnim ≠ currentAnimation)
  then playAnimation mixer animations currentAnimation predictedAnim
  else (currentAnimation, []).

(** The effect that follows [playerData.currentAnimation]; [serverAnim]
    is that field.  ([playAnimation] does not throw in this model, so
    the [catch] branch is not reached.) *)
Definition serverAnimationEffect (mixer : bool) (animations : gset string)
    (currentAnimation : string) (isLocalPlayer : bool) (serverAnim : string)
    : string * list AnimationCommand :=
  if negb mixer || bool_decide (size animations = 0%nat)
  then (currentAnimation, [])
  else
    let isMovementAnim :=
      String.prefix "walk" serverAnim || String.prefix "run" serverAnim
      || bool_decide (serverAnim = "idle") || bool_decide (serverAnim = "jump") in
    let shouldIgnoreServer := isLocalPlayer && isMovementAnim in
    if negb shouldIgnoreServer && bool_decide (serverAnim ≠ "")
       && bool_decide (serverAnim ≠ currentAnimation)
       && bool_decide (serverAnim ∈ animations)
    then playAnimation mixer animations currentAnimation serverAnim
    else (currentAnimation, []).

(** ** Camera control ([Player.tsx]) *)

Module CAMERA_CONFIG.
Definition SENSITIVITY_YAW : R := 0.005.
Definition SENSITIVITY_PITCH : R := 0.004.
Definition Y_MIN : R := -80.0.
Definition Y_MAX : R := 80.0.
End CAMERA_CONFIG.

Inductive CameraMode : Type := FOLLOW | ORBITAL.

(** [THREE.MathUtils.degToRad] and [THREE.MathUtils.clamp] *)
Definition degToRad (degrees : R) : R := degrees * (PI / 180).
Definition clamp (value min max : R) : R := Rmax min (Rmin max value).

(** [Math.trunc] of a real, and the JavaScript remainder [x % m], which
    takes the sign of [x]. *)
Definition truncZ (x : R) : Z :=
  if decide (0 <= x) then Int_part x else (- Int_part (- x))%Z.

Definition jsRem (x m : R) : R := x - m * IZR (truncZ (x / m)).

(** [Math.sign] *)
Definition sign (x : R) : R :=
  if decide (0 < x) then 1 else if decide (x < 0) then -1 else 0.

(** The fields of [orbitalCameraRef.current] the handlers touch. *)
Record OrbitalCamera : Type := mkOrbitalCamera {
  distance : R;
  angle : R;
  elevation : R;
  playerFacingRotation : R
}.

(** [handleMouseMove(e)] with [e.movementX] and [e.movementY]: the new
    [localRotationRef] and orbital camera.  (The [onRotationChange]
    callback receives the new rotation.) *)
Definition handleMouseMove (isPointerLocked isLocalPlayer : bool)
    (cameraMode : CameraMode) (rot : Euler.t) (orbital : OrbitalCamera)
    (movementX movementY : R) : Euler.t * OrbitalCamera :=
  if negb isPointerLocked || negb isLocalPlayer then (rot, orbital)
  else
    match cameraMode with
    | FOLLOW =>
      let y1 := Euler.y rot - movementX * CAMERA_CONFIG.SENSITIVITY_YAW in
      let x1 := Euler.x rot - movementY * CAMERA_CONFIG.SENSITIVITY_PITCH in
      let minPitchRad := degToRad CAMERA_CONFIG.Y_MIN in
      let maxPitchRad := degToRad CAMERA_CONFIG.Y_MAX in
      let x2 := clamp x1 minPitchRad maxPitchRad in
      let y2 := jsRem (y1 + PI) (2 * PI) - PI in
      (Euler.mk x2 y2 (Euler.z rot), orbital)
    | ORBITAL =>
      let sensitivity := CAMERA_CONFIG.SENSITIVITY_YAW in
      let angle1 := angle orbital - movementX * sensitivity in
      let elevation1 :=
        elevation orbital + movementY * CAMERA_CONFIG.SENSITIVITY_PITCH in
      let elevation2 := Rmax (PI / 12) (Rmin (PI / 2.1) elevation1) in
      (rot,
       mkOrbitalCamera (distance orbital) angle1 elevation2
         (playerFacingRotation orbital))
    end.

(** [handleMouseWheel(e)] with [e.deltaY]: the new [targetZoom] and
    orbital camera. *)
Definition handleMouseWheel (isLocalPlayer : bool) (cameraMode : CameraMode)
    (zoomLevel targetZoom : R) (orbital : OrbitalCamera) (deltaY : R)
    : R * OrbitalCamera :=
  if negb isLocalPlayer then (targetZoom, orbital)
  else
    match cameraMode with
    | FOLLOW =>
      let zoomSpeed := 0.8 in
      let zoomChange := sign deltaY * zoomSpeed in
      let minZoom := 2.0 in
      let maxZoom := 12.0 in
      (Rmax minZoom (Rmin maxZoom (zoomLevel + zoomChange)), orbital)
    | ORBITAL =>
      let zoomSpeed := 0.5 in
      let zoomChange := sign deltaY * zoomSpeed in
      (targetZoom,
       mkOrbitalCamera
         (Rmax 3 (Rmin 20 (distance orbital + zoomChange)))
         (angle orbital) (elevation orbital) (playerFacingRotation orbital))
    end.

(** [toggleCameraMode()]: the new mode and orbital camera. *)
Definition toggleCameraMode (cameraMode : CameraMode) (rot : Euler.t)
    (orbital : OrbitalCamera) : CameraMode * OrbitalCamera :=
  let newMode :=
    match cameraMode with FOLLOW => ORBITAL | ORBITAL => FOLLOW end in
  match newMode with
  | ORBITAL =>
    (newMode,
     mkOrbitalCamera (distance orbital) (Euler.y rot) (PI / 6) (Euler.y rot))
  | FOLLOW => (newMode, orbital)
  end.

(** The camera position the frame callback sets in orbital mode, around
    the group position. *)
Definition orbitalCameraPosition (groupPos : Vector3.t)
    (orbital : OrbitalCamera) : Vector3.t :=
  let horizontalDistance := distance orbital * cos (elevation orbital) in
  let height := distance orbital * sin (elevation orbital) in
  let orbitX := Vector3.x groupPos + sin (angle orbital) * horizontalDistance in
  let orbitY := Vector3.y groupPos + height in
  let orbitZ := Vector3.z groupPos + cos (angle orbital) * horizontalDistance in
  Vector3.mk orbitX orbitY orbitZ.

(** ** Projectile meshes ([ProjectileManager.tsx]) *)

Module ProjectileManager.

(** What the frame callback reads and writes of a [THREE.Mesh]. *)
Record Mesh : Type := mkMesh {
  meshPosition : Vector3.t;
  rotationX : R;
  rotationZ : R;
  castShadow : bool
}.

(** The creation branch: a new mesh placed at the projectile position,
    casting shadows. *)
Definition createMesh (dataPosition : Vector3.t) : Mesh :=
  mkMesh
    (Vector3.mk (Vector3.x dataPosition) (Vector3.y dataPosition)
       (Vector3.z dataPosition))
    0 0 true.

(** The update every mesh gets: a blend of 0.2 towards the projectile
    position and a spin. *)
Definition updateMesh (mesh : Mesh) (dataPosition : Vector3.t) (delta : R)
    : Mesh :=
  let serverPos :=
    Vector3.mk (Vector3.x dataPosition) (Vector3.y dataPosition)
      (Vector3.z dataPosition) in
  mkMesh (Vector3.lerp (meshPosition mesh) serverPos 0.2)
    (rotationX mesh + delta * 5) (rotationZ mesh + delta * 5)
    (castShadow mesh).

(** The frame callback on [projectileMeshes.current]; [projectiles] maps
    an id to [data.position].  First the meshes whose projectile is gone
    are deleted, then every projectile gets its mesh created if missing
    and updated.  (The scene holds exactly the meshes of the map and is
    not modelled.) *)
Definition useFrame (projectileMeshes : gmap string Mesh)
    (projectiles : gmap string Vector3.t) (delta : R) : gmap string Mesh :=
  let kept :=
    filter (fun kv => is_Some (projectiles !! fst kv)) projectileMeshes in
  map_fold
    (fun id data meshes =>
       let mesh := default (createMesh data) (meshes !! id) in
       <[id := updateMesh mesh data delta]> meshes)
    kept projectiles.

End ProjectileManager.

(** ** Animation loading ([loadAnimations])

    How the load of one animation ends: the existence check fails (the
    response is not ok, or the request fails), or the file is handed to
    the loader, which ends in a call of [checkCompletedLoading] whether
    it succeeds or not. *)
Inductive LoadOutcome : Type := FetchFailed | Processed.

#[global] Instance LoadOutcome_eq_dec : EqDecision LoadOutcome.
Proof. solve_decision. Defined.

(** [loadedCount], and how many times the completion branch of
    [checkCompletedLoading] has run (it stores the loaded animations in
    the component state and starts the idle animation). *)
Record LoadState : Type := mkLoadState {
  loadedCount : nat;
  completions : nat
}.

(** [totalCount]: one per key of [animKeys]. *)
Definition totalCount : nat := length animKeys.

(** [checkCompletedLoading()] *)
Definition checkCompletedLoading (st : LoadState) : LoadState :=
  let count := S (loadedCount st) in
  mkLoadState count
    (if decide (count = totalCount) then S (completions st)
     else completions st).

(** The callbacks of one animation: a failed check increments the count
    and then calls [checkCompletedLoading]; every other ending calls
    [checkCompletedLoading] alone. *)
Definition loadStep (st : LoadState) (o : LoadOutcome) : LoadState :=
  match o with
  | FetchFailed =>
    checkCompletedLoading (mkLoadState (S (loadedCount st)) (completions st))
  | Processed => checkCompletedLoading st
  end.

(** ** Retargeting ([retargetClip]) *)

(** [s.split(sep)] for a one-character separator: never empty. *)
Fixpoint splitChar (sep : ascii) (s : string) : list string :=
  match s with
  | EmptyString => [EmptyString]
  | String c rest =>
    if decide (c = sep) then EmptyString :: splitChar sep rest
    else
      match splitChar sep rest with
      | p :: ps => String c p :: ps
      | [] => [String c EmptyString]
      end
  end.

Definition splitDot (s : string) : list string := splitChar "."%char s.

(** [path.split('/').pop()?.split('.')[0] || ''] *)
Definition fileBaseName (path : string) : string :=
  match last (splitChar "/"%char path) with
  | Some file => default EmptyString (head (splitDot file))
  | None => EmptyString
  end.

(** [parts.join('.')] *)
Fixpoint joinDot (parts : list string) : string :=
  match parts with
  | [] => EmptyString
  | [p] => p
  | p :: ps => p +:+ "." +:+ joinDot ps
  end.

Inductive TrackKind : Type :=
  | QuaternionKeyframeTrack | VectorKeyframeTrack | KeyframeTrack.

(** A [THREE.KeyframeTrack]. *)
Record Track : Type := mkTrack {
  trackName : string;
  times : list R;
  values : list R;
  kind : TrackKind
}.

(** A [THREE.AnimationClip]. *)
Record Clip : Type := mkClip {
  clipName : string;
  duration : R;
  tracks : list Track;
  blendMode : Z
}.

(** The track [retargetClip] pushes for one track of the clip. *)
Definition retargetTrack (track : Track) : Track :=
  let trackNameParts := splitDot (trackName track) in
  if decide (length trackNameParts < 2)%nat then track
  else
    let boneName := default EmptyString (head trackNameParts) in
    let property := joinDot (tail trackNameParts) in
    let targetBoneName := boneName in
    let newTrackName := targetBoneName +:+ "." +:+ property in
    if decide (newTrackName ≠ trackName track) then
      match kind track with
      | QuaternionKeyframeTrack =>
        mkTrack newTrackName (times track) (values track)
          QuaternionKeyframeTrack
      | VectorKeyframeTrack =>
        mkTrack newTrackName (times track) (values track) VectorKeyframeTrack
      | KeyframeTrack =>
        mkTrack newTrackName (times track) (values track) KeyframeTrack
      end
    else track.

(** [retargetClip(clip, sourceModelPath)]: [modelLoaded] says whether
    [model] is set, [mainModelPath] is the path of the character model. *)
Definition retargetClip (modelLoaded : bool) (mainModelPath : string)
    (clip : Clip) (sourceModelPath : string) : Clip :=
  if negb modelLoaded then clip
  else
    let sourceFileName := fileBaseName sourceModelPath in
    let targetFileName := fileBaseName mainModelPath in
    if decide (sourceFileName = targetFileName) then clip
    else
      mkClip (clipName clip) (duration clip) (retargetTrack <$> tracks clip)
        (blendMode clip).

(** ** The net planar direction

    [worldMoveVector] before the normalization and the scaling: the sum
    of the basis vectors of the keys that are down. *)
Definition netDirection (playerYaw : R) (inputState : InputState) : Vector3.t :=
  let forward := forwardVector playerYaw in
  let right := rightVector playerYaw in
  let v0 := Vector3.zero in
  let v1 := if Input.forward inputState then Vector3.add v0 forward else v0 in
  let v2 := if Input.backward inputState then Vector3.sub v1 forward else v1 in
  let v3 := if Input.left inputState then Vector3.sub v2 right else v2 in
  if Input.right inputState then Vector3.add v3 right else v3.

(** * Properties *)

(** ** Vectors *)

Lemma Vector3_eq (a b : Vector3.t) :
  Vector3.x a = Vector3.x b → Vector3.y a = Vector3.y b →
  Vector3.z a = Vector3.z b → a = b.
Proof. destruct a, b; simpl; intros; subst; reflexivity. Qed.

Lemma distanceToSquared_nonneg (a b : Vector3.t) :
  0 <= Vector3.distanceToSquared a b.
Proof.
  unfold Vector3.distanceToSquared. cbv zeta.
  pose proof (Rle_0_sqr (Vector3.x a - Vector3.x b)).
  pose proof (Rle_0_sqr (Vector3.y a - Vector3.y b)).
  pose proof (Rle_0_sqr (Vector3.z a - Vector3.z b)).
  unfold Rsqr in *. lra.
Qed.

Lemma distanceTo_nonneg (a b : Vector3.t) : 0 <= Vector3.distanceTo a b.
Proof. apply sqrt_pos. Qed.

Lemma distanceTo_self (a : Vector3.t) : Vector3.distanceTo a a = 0.
Proof.
  unfold Vector3.distanceTo, Vector3.distanceToSquared.
  replace (_ + _) with 0 by ring. apply sqrt_0.
Qed.

Lemma distanceTo_zero_eq (a b : Vector3.t) :
  Vector3.distanceTo a b = 0 → a = b.
Proof.
  intros H. apply sqrt_eq_0 in H; [|apply distanceToSquared_nonneg].
  unfold Vector3.distanceToSquared in H. cbv zeta in H.
  pose proof (Rle_0_sqr (Vector3.x a - Vector3.x b)) as Hx.
  pose proof (Rle_0_sqr (Vector3.y a - Vector3.y b)) as Hy.
  pose proof (Rle_0_sqr (Vector3.z a - Vector3.z b)) as Hz.
  unfold Rsqr in *.
  apply Vector3_eq; apply Rminus_diag_uniq, Rsqr_0_uniq; unfold Rsqr; lra.
Qed.

(** Two points that differ in [x] only are [|dx|] apart. *)
Lemma distanceTo_along_x (a b y z : R) :
  Vector3.distanceTo (Vector3.mk a y z) (Vector3.mk b y z) = Rabs (a - b).
Proof.
  unfold Vector3.distanceTo, Vector3.distanceToSquared; simpl.
  replace (_ + _) with (Rsqr (a - b)) by (unfold Rsqr; ring).
  apply sqrt_Rsqr_abs.
Qed.

Lemma lerp_0 (a b : Vector3.t) : Vector3.lerp a b 0 = a.
Proof. apply Vector3_eq; simpl; ring. Qed.

Lemma lerp_same (a : Vector3.t) (alpha : R) : Vector3.lerp a a alpha = a.
Proof. apply Vector3_eq; simpl; ring. Qed.

(** A blend with a factor other than 1 reaches the target only from the
    target. *)
Lemma lerp_reaches_target (a b : Vector3.t) (alpha : R) :
  alpha ≠ 1 → Vector3.lerp a b alpha = b → a = b.
Proof.
  intros Ha H.
  assert (Hx := f_equal Vector3.x H).
  assert (Hy := f_equal Vector3.y H).
  assert (Hz := f_equal Vector3.z H).
  simpl in Hx, Hy, Hz.
  assert (Hk : 1 - alpha ≠ 0) by lra.
  apply Vector3_eq.
  - apply Rminus_diag_uniq.
    apply (Rmult_eq_reg_l (1 - alpha)); [|exact Hk]. nra.
  - apply Rminus_diag_uniq.
    apply (Rmult_eq_reg_l (1 - alpha)); [|exact Hk]. nra.
  - apply Rminus_diag_uniq.
    apply (Rmult_eq_reg_l (1 - alpha)); [|exact Hk]. nra.
Qed.

(** ** Reconciliation tiers *)

Lemma reconcile_snap (p s : Vector3.t) :
  Vector3.distanceTo p s > 1 → reconcile p s = s.
Proof. intros H. unfold reconcile. case_decide; [reflexivity|lra]. Qed.

Lemma reconcile_aggressive (p s : Vector3.t) :
  0.2 < Vector3.distanceTo p s <= 1 →
  reconcile p s =
  Vector3.lerp p s (Rmin 0.3 (0.15 + Vector3.distanceTo p s * 0.3)).
Proof.
  intros [H1 H2]. unfold reconcile, POSITION_RECONCILE_THRESHOLD.
  case_decide; [lra|]. case_decide; [reflexivity|lra].
Qed.

Lemma reconcile_gentle (p s : Vector3.t) :
  Vector3.distanceTo p s <= 0.2 → reconcile p s = Vector3.lerp p s 0.05.
Proof.
  intros H. unfold reconcile, POSITION_RECONCILE_THRESHOLD.
  case_decide; [lra|]. case_decide; [lra|reflexivity].
Qed.

(** Within one unit the reconciler blends with a factor below 1, so it
    lands on the server position only when it started there. *)
Lemma reconcile_no_snap (p s : Vector3.t) :
  0 < Vector3.distanceTo p s <= 1 → reconcile p s ≠ s.
Proof.
  intros [H0 H1] Heq.
  assert (Hps : p = s).
  { destruct (decide (Vector3.distanceTo p s > 0.2)) as [Hd|Hd].
    - rewrite reconcile_aggressive in Heq by lra.
      eapply lerp_reaches_target; [|exact Heq].
      pose proof (Rmin_l 0.3 (0.15 + Vector3.distanceTo p s * 0.3)). lra.
    - rewrite reconcile_gentle in Heq by lra.
      eapply lerp_reaches_target; [|exact Heq]. lra. }
  subst s. rewrite distanceTo_self in H0. lra.
Qed.

Ltac dist_x :=
  rewrite distanceTo_along_x;
  first [rewrite Rabs_left by lra | rewrite Rabs_right by lra].

(** C2, as stated, fails: with the prediction at the origin and the server
    position one unit away on the [x] axis the reconciler does not snap;
    it blends by 0.3 and lands at [(0.3, 0, 0)]. *)
Lemma C2_counterexample :
  Vector3.distanceTo (Vector3.mk 0 0 0) (Vector3.mk 1 0 0) = 1 ∧
  reconcile (Vector3.mk 0 0 0) (Vector3.mk 1 0 0) = Vector3.mk 0.3 0 0 ∧
  reconcile (Vector3.mk 0 0 0) (Vector3.mk 1 0 0) ≠ Vector3.mk 1 0 0.
Proof.
  assert (Hd : Vector3.distanceTo (Vector3.mk 0 0 0) (Vector3.mk 1 0 0) = 1).
  { dist_x. lra. }
  assert (Hr : reconcile (Vector3.mk 0 0 0) (Vector3.mk 1 0 0)
               = Vector3.mk 0.3 0 0).
  { rewrite reconcile_aggressive by (rewrite Hd; lra).
    rewrite Hd. rewrite Rmin_left by lra.
    apply Vector3_eq; simpl; lra. }
  split; [exact Hd|]. split; [exact Hr|].
  rewrite Hr. intros H. apply (f_equal Vector3.x) in H. simpl in H. lra.
Qed.

(** C2 (amended): the snap tier starts strictly above one unit.  At a
    distance greater than 1 the reconciled position is the server
    position; at a distance of exactly 1 the reconciler blends by 0.3 and
    does not reach the server position; at a distance of 0.999 it does
    not snap either. *)
Theorem C2_snap_tier_boundary (p s : Vector3.t) :
  (Vector3.distanceTo p s > 1 → reconcile p s = s) ∧
  (Vector3.distanceTo p s = 1 →
     reconcile p s = Vector3.lerp p s 0.3 ∧ reconcile p s ≠ s) ∧
  (Vector3.distanceTo p s = 0.999 → reconcile p s ≠ s).
Proof.
  split; [apply reconcile_snap|]. split.
  - intros Hd. split.
    + rewrite reconcile_aggressive by lra.
      rewrite Hd. rewrite Rmin_left by lra. reflexivity.
    + apply reconcile_no_snap. lra.
  - intros Hd. apply reconcile_no_snap. lra.
Qed.

Lemma C2_snap_tier_boundary_witness :
  reconcile (Vector3.mk 0 0 0) (Vector3.mk 2 0 0) = Vector3.mk 2 0 0 ∧
  (reconcile (Vector3.mk 0 0 0) (Vector3.mk 1 0 0)
     = Vector3.lerp (Vector3.mk 0 0 0) (Vector3.mk 1 0 0) 0.3 ∧
   reconcile (Vector3.mk 0 0 0) (Vector3.mk 1 0 0) ≠ Vector3.mk 1 0 0) ∧
  reconcile (Vector3.mk 0 0 0) (Vector3.mk 0.999 0 0) ≠ Vector3.mk 0.999 0 0.
Proof.
  split; [|split].
  - apply (proj1 (C2_snap_tier_boundary _ _)). dist_x. lra.
  - apply (proj1 (proj2 (C2_snap_tier_boundary _ _))). dist_x. lra.
  - apply (proj2 (proj2 (C2_snap_tier_boundary _ _))). dist_x. lra.
Defined.

(** C3: with [d] the distance between the predicted and the server
    position, the reconciler blends by [min(0.3, 0.15 + d * 0.3)] when
    [0.2 < d <= 1] and by 0.05 when [d <= 0.2]; at [d = 0] the predicted
    position is unchanged. *)
Theorem C3_blend_factors (p s : Vector3.t) :
  let d := Vector3.distanceTo p s in
  (0.2 < d <= 1 →
     reconcile p s = Vector3.lerp p s (Rmin 0.3 (0.15 + d * 0.3))) ∧
  (d <= 0.2 → reconcile p s = Vector3.lerp p s 0.05) ∧
  (d = 0 → reconcile p s = p).
Proof.
  cbv zeta. split; [apply reconcile_aggressive|].
  split; [apply reconcile_gentle|].
  intros Hd. rewrite reconcile_gentle by lra.
  apply distanceTo_zero_eq in Hd. subst s. apply lerp_same.
Qed.

Lemma C3_blend_factors_witness :
  reconcile (Vector3.mk 0 0 0) (Vector3.mk 0.5 0 0)
    = Vector3.lerp (Vector3.mk 0 0 0) (Vector3.mk 0.5 0 0)
        (Rmin 0.3
           (0.15 + Vector3.distanceTo (Vector3.mk 0 0 0) (Vector3.mk 0.5 0 0)
                   * 0.3)) ∧
  reconcile (Vector3.mk 0 0 0) (Vector3.mk 0.1 0 0)
    = Vector3.lerp (Vector3.mk 0 0 0) (Vector3.mk 0.1 0 0) 0.05 ∧
  reconcile (Vector3.mk 1 2 3) (Vector3.mk 1 2 3) = Vector3.mk 1 2 3.
Proof.
  split; [|split].
  - apply (proj1 (C3_blend_factors _ _)). dist_x. lra.
  - apply (proj1 (proj2 (C3_blend_factors _ _))). dist_x. lra.
  - apply (proj2 (proj2 (C3_blend_factors _ _))). apply distanceTo_self.
Defined.

(** ** Prediction: what [calculateClientMovement] reads and writes *)

(** The early-return test of [calculateClientMovement]. *)
Lemma calculateClientMovement_idle (refs : PlayerRefs) (currentPos : Vector3.t)
    (currentRot : Euler.t) (inputState : InputState) (delta : R) :
  Input.forward inputState = false → Input.backward inputState = false →
  Input.left inputState = false → Input.right inputState = false →
  Input.jump inputState = false → Vector3.y currentPos <= 0 →
  calculateClientMovement refs currentPos currentRot inputState delta
  = (currentPos, refs).
Proof.
  intros Hf Hb Hl Hr Hj Hy. unfold calculateClientMovement.
  rewrite Hf, Hb, Hl, Hr, Hj. simpl.
  rewrite bool_decide_eq_true_2 by exact Hy. reflexivity.
Qed.

(** With the jump key down there is no early return. *)
Lemma calculateClientMovement_jump_held (refs : PlayerRefs)
    (currentPos : Vector3.t) (currentRot : Euler.t) (inputState : InputState)
    (delta : R) :
  Input.jump inputState = true →
  let move := worldMoveVector (Euler.y currentRot) inputState delta in
  let v :=
    if jumpRisingEdge refs currentPos inputState then JUMP_FORCE
    else verticalVelocity refs + GRAVITY * delta in
  let newY := Vector3.y currentPos + Vector3.y move + v * delta in
  let refs' := snd (calculateClientMovement refs currentPos currentRot
                      inputState delta) in
  prevJumpRef refs' = true ∧
  verticalVelocity refs' = (if decide (newY < 0) then 0 else v) ∧
  Vector3.y (fst (calculateClientMovement refs currentPos currentRot
                    inputState delta))
  = (if decide (newY < 0) then 0 else newY).
Proof.
  intros Hj. cbv zeta. unfold calculateClientMovement.
  rewrite Hj. rewrite andb_false_r. simpl.
  unfold jumpRisingEdge. rewrite Hj. simpl.
  destruct (prevJumpRef refs); simpl.
  - destruct (decide _); simpl; repeat split; reflexivity.
  - destruct (bool_decide _); simpl; destruct (decide _);
      simpl; repeat split; reflexivity.
Qed.

(** The refs other than [verticalVelocity] and [prevJumpRef] are not
    written. *)
Lemma calculateClientMovement_frame (refs : PlayerRefs) (currentPos : Vector3.t)
    (currentRot : Euler.t) (inputState : InputState) (delta : R) :
  let refs' := snd (calculateClientMovement refs currentPos currentRot
                      inputState delta) in
  localPositionRef refs' = localPositionRef refs ∧
  localRotationRef refs' = localRotationRef refs ∧
  remotePositionBuffer refs' = remotePositionBuffer refs ∧
  remoteTargetPosition refs' = remoteTargetPosition refs ∧
  groupPosition refs' = groupPosition refs.
Proof.
  cbv zeta. unfold calculateClientMovement.
  destruct (_ && _ && _); [repeat split|].
  destruct (jumpRisingEdge _ _ _); destruct (decide _); repeat split.
Qed.

(** The result depends on the refs through [verticalVelocity] and
    [prevJumpRef] only. *)
Lemma calculateClientMovement_reads (refs refs' : PlayerRefs)
    (currentPos : Vector3.t) (currentRot currentRot' : Euler.t)
    (inputState : InputState) (delta : R) :
  verticalVelocity refs = verticalVelocity refs' →
  prevJumpRef refs = prevJumpRef refs' →
  Euler.y currentRot = Euler.y currentRot' →
  let out := calculateClientMovement refs currentPos currentRot
               inputState delta in
  let out' := calculateClientMovement refs' currentPos currentRot'
                inputState delta in
  fst out = fst out' ∧
  verticalVelocity (snd out) = verticalVelocity (snd out') ∧
  prevJumpRef (snd out) = prevJumpRef (snd out').
Proof.
  intros Hv Hp Hy. cbv zeta. unfold calculateClientMovement.
  destruct (_ && _ && _); [repeat split; assumption|].
  unfold jumpRisingEdge. simpl. rewrite Hv, Hp, Hy.
  destruct (_ && _ && _); simpl; destruct (decide _); repeat split.
Qed.

(** C9: reconciliation writes the predicted position only.  The vertical
    velocity, the rotation (hence the yaw) and the previous-jump flag are
    the same after [reconcileStep]; its result does not depend on the
    rotation carried by the snapshot; and over a whole local frame the
    rotation is still the one the frame started with. *)
Theorem C9_reconcile_writes_position_only (refs : PlayerRefs)
    (playerData : PlayerData) :
  verticalVelocity (reconcileStep refs playerData) = verticalVelocity refs ∧
  localRotationRef (reconcileStep refs playerData) = localRotationRef refs ∧
  prevJumpRef (reconcileStep refs playerData) = prevJumpRef refs ∧
  (∀ rot' : Vector3.t,
     reconcileStep refs
       (mkPlayerData (position playerData) rot' (lastInputSeq playerData))
     = reconcileStep refs playerData) ∧
  (∀ currentInput : InputState,
     localRotationRef (localFrame refs currentInput playerData)
     = localRotationRef refs).
Proof.
  repeat split.
  intros currentInput. unfold localFrame, reconcileStep, predictStep. simpl.
  pose proof (calculateClientMovement_frame refs (localPositionRef refs)
                (localRotationRef refs) currentInput FIXED_DELTA) as Hfr.
  cbv zeta in Hfr.
  destruct (calculateClientMovement _ _ _ _ _) as [p r]. simpl in *.
  tauto.
Qed.

(** C10: a call with no movement key, no jump key and [y <= 0] returns
    the position it was given and leaves every ref as it was: gravity is
    not added to the vertical velocity and [prevJumpRef] keeps its value.
    So when the jump key was down on the previous call, the release on
    this call is not recorded, and a press on the next call is not a
    rising edge, whatever the position then. *)
Theorem C10_idle_grounded_call_is_skipped (refs : PlayerRefs)
    (currentPos : Vector3.t) (currentRot : Euler.t) (inputState : InputState)
    (delta : R) :
  Input.forward inputState = false → Input.backward inputState = false →
  Input.left inputState = false → Input.right inputState = false →
  Input.jump inputState = false → Vector3.y currentPos <= 0 →
  let out := calculateClientMovement refs currentPos currentRot
               inputState delta in
  fst out = currentPos ∧
  snd out = refs ∧
  verticalVelocity (snd out) = verticalVelocity refs ∧
  prevJumpRef (snd out) = prevJumpRef refs ∧
  (prevJumpRef refs = true →
   ∀ (nextPos : Vector3.t) (nextInput : InputState),
     jumpRisingEdge (snd out) nextPos nextInput = false).
Proof.
  intros Hf Hb Hl Hr Hj Hy. cbv zeta.
  rewrite calculateClientMovement_idle by assumption. simpl.
  repeat split. intros Hp nextPos nextInput.
  unfold jumpRisingEdge. rewrite Hp. simpl.
  rewrite andb_false_r. reflexivity.
Qed.

Lemma C10_idle_grounded_call_is_skipped_witness :
  let out := calculateClientMovement (idleRefs true) (Vector3.mk 0 0 0)
               (Euler.mk 0 0 0) (keys false false false false false false)
               FIXED_DELTA in
  fst out = Vector3.mk 0 0 0 ∧
  snd out = idleRefs true ∧
  verticalVelocity (snd out) = verticalVelocity (idleRefs true) ∧
  prevJumpRef (snd out) = prevJumpRef (idleRefs true) ∧
  (prevJumpRef (idleRefs true) = true →
   ∀ (nextPos : Vector3.t) (nextInput : InputState),
     jumpRisingEdge (snd out) nextPos nextInput = false).
Proof.
  apply (C10_idle_grounded_call_is_skipped (idleRefs true) (Vector3.mk 0 0 0)
           (Euler.mk 0 0 0) (keys false false false false false false)
           FIXED_DELTA); simpl; try reflexivity; lra.
Defined.

(** ** The planar basis *)

Lemma forwardVector_eq (yaw : R) :
  forwardVector yaw = Vector3.mk (- sin yaw) 0 (- cos yaw).
Proof.
  unfold forwardVector, applyAxisAngle, applyQuaternion,
    Quaternion.setFromAxisAngle. simpl.
  replace (sin yaw) with (sin (2 * (yaw / 2))) by (f_equal; lra).
  replace (cos yaw) with (cos (2 * (yaw / 2))) by (f_equal; lra).
  rewrite sin_2a, cos_2a_sin.
  apply Vector3_eq; simpl; ring.
Qed.

Lemma rightVector_eq (yaw : R) :
  rightVector yaw = Vector3.mk (cos yaw) 0 (- sin yaw).
Proof.
  unfold rightVector, applyAxisAngle, applyQuaternion,
    Quaternion.setFromAxisAngle. simpl.
  replace (sin yaw) with (sin (2 * (yaw / 2))) by (f_equal; lra).
  replace (cos yaw) with (cos (2 * (yaw / 2))) by (f_equal; lra).
  rewrite sin_2a, cos_2a_sin.
  apply Vector3_eq; simpl; ring.
Qed.

Lemma sin_cos_unit (yaw : R) : sin yaw * sin yaw + cos yaw * cos yaw = 1.
Proof. pose proof (sin2_cos2 yaw) as H. unfold Rsqr in H. exact H. Qed.

(** The planar move has no vertical part. *)
Lemma worldMoveVector_y (yaw : R) (inputState : InputState) (delta : R) :
  Vector3.y (worldMoveVector yaw inputState delta) = 0.
Proof.
  unfold worldMoveVector. rewrite forwardVector_eq, rightVector_eq.
  destruct (Input.forward inputState), (Input.backward inputState),
    (Input.left inputState), (Input.right inputState);
    cbv zeta; destruct (decide _); simpl; ring.
Qed.

(** ** Prediction ticks *)

Lemma predictStep_fields (refs : PlayerRefs) (input : InputState) :
  let out := calculateClientMovement refs (localPositionRef refs)
               (localRotationRef refs) input FIXED_DELTA in
  localPositionRef (predictStep refs input) = fst out ∧
  verticalVelocity (predictStep refs input) = verticalVelocity (snd out) ∧
  prevJumpRef (predictStep refs input) = prevJumpRef (snd out) ∧
  localRotationRef (predictStep refs input) = localRotationRef refs.
Proof.
  cbv zeta. unfold predictStep.
  pose proof (calculateClientMovement_frame refs (localPositionRef refs)
                (localRotationRef refs) input FIXED_DELTA) as Hfr.
  cbv zeta in Hfr.
  destruct (calculateClientMovement _ _ _ _ _) as [p r]. simpl in *.
  tauto.
Qed.

(** C7: with the jump key held over three calls, starting on the ground
    ([y <= 0.01]) with the previous-jump flag clear, the guard of the
    impulse holds on the first call and fails on the second and the third,
    wherever the player is then.  The first call leaves the vertical
    velocity at [JUMP_FORCE] (0 when the new height is below the ground);
    the second and third only add gravity to it (or zero it on ground
    contact). *)
Theorem C7_jump_impulse_once (refs : PlayerRefs) (p1 p2 p3 : Vector3.t)
    (rot1 rot2 rot3 : Euler.t) (i1 i2 i3 : InputState) (delta : R) :
  Vector3.y p1 <= 0.01 → prevJumpRef refs = false →
  Input.jump i1 = true → Input.jump i2 = true → Input.jump i3 = true →
  let r1 := snd (calculateClientMovement refs p1 rot1 i1 delta) in
  let r2 := snd (calculateClientMovement r1 p2 rot2 i2 delta) in
  let r3 := snd (calculateClientMovement r2 p3 rot3 i3 delta) in
  let fall (v : R) := v + GRAVITY * delta in
  (jumpRisingEdge refs p1 i1 = true ∧
   verticalVelocity r1 =
     if decide (Vector3.y p1 + JUMP_FORCE * delta < 0) then 0
     else JUMP_FORCE) ∧
  (jumpRisingEdge r1 p2 i2 = false ∧
   verticalVelocity r2 =
     if decide (Vector3.y p2 + fall (verticalVelocity r1) * delta < 0) then 0
     else fall (verticalVelocity r1)) ∧
  (jumpRisingEdge r2 p3 i3 = false ∧
   verticalVelocity r3 =
     if decide (Vector3.y p3 + fall (verticalVelocity r2) * delta < 0) then 0
     else fall (verticalVelocity r2)).
Proof.
  intros Hy Hp Hj1 Hj2 Hj3. cbv zeta.
  pose proof (calculateClientMovement_jump_held refs p1 rot1 i1 delta Hj1)
    as H1. cbv zeta in H1. destruct H1 as (Hp1 & Hv1 & _).
  set (r1 := snd (calculateClientMovement refs p1 rot1 i1 delta)) in *.
  pose proof (calculateClientMovement_jump_held r1 p2 rot2 i2 delta Hj2)
    as H2. cbv zeta in H2. destruct H2 as (Hp2 & Hv2 & _).
  set (r2 := snd (calculateClientMovement r1 p2 rot2 i2 delta)) in *.
  pose proof (calculateClientMovement_jump_held r2 p3 rot3 i3 delta Hj3)
    as H3. cbv zeta in H3. destruct H3 as (_ & Hv3 & _).
  assert (E1 : jumpRisingEdge refs p1 i1 = true).
  { unfold jumpRisingEdge. rewrite Hj1, Hp. simpl.
    apply bool_decide_eq_true_2. exact Hy. }
  assert (E2 : jumpRisingEdge r1 p2 i2 = false).
  { unfold jumpRisingEdge. rewrite Hp1. simpl.
    rewrite andb_false_r. reflexivity. }
  assert (E3 : jumpRisingEdge r2 p3 i3 = false).
  { unfold jumpRisingEdge. rewrite Hp2. simpl.
    rewrite andb_false_r. reflexivity. }
  rewrite E1 in Hv1. rewrite E2 in Hv2. rewrite E3 in Hv3.
  rewrite worldMoveVector_y in Hv1, Hv2, Hv3.
  rewrite Rplus_0_r in Hv1, Hv2, Hv3.
  repeat split; assumption.
Qed.

Lemma C7_jump_impulse_once_witness :
  let refs := idleRefs false in
  let hold := keys false false false false false true in
  let rot := Euler.mk 0 0 0 in
  let p1 := Vector3.mk 0 0 0 in
  let p2 := Vector3.mk 0 0.15 0 in
  let p3 := Vector3.mk 0 0.3 0 in
  let r1 := snd (calculateClientMovement refs p1 rot hold FIXED_DELTA) in
  let r2 := snd (calculateClientMovement r1 p2 rot hold FIXED_DELTA) in
  let r3 := snd (calculateClientMovement r2 p3 rot hold FIXED_DELTA) in
  let fall (v : R) := v + GRAVITY * FIXED_DELTA in
  (jumpRisingEdge refs p1 hold = true ∧
   verticalVelocity r1 =
     if decide (Vector3.y p1 + JUMP_FORCE * FIXED_DELTA < 0) then 0
     else JUMP_FORCE) ∧
  (jumpRisingEdge r1 p2 hold = false ∧
   verticalVelocity r2 =
     if decide (Vector3.y p2 + fall (verticalVelocity r1) * FIXED_DELTA < 0)
     then 0 else fall (verticalVelocity r1)) ∧
  (jumpRisingEdge r2 p3 hold = false ∧
   verticalVelocity r3 =
     if decide (Vector3.y p3 + fall (verticalVelocity r2) * FIXED_DELTA < 0)
     then 0 else fall (verticalVelocity r2)).
Proof.
  apply (C7_jump_impulse_once (idleRefs false) (Vector3.mk 0 0 0)
           (Vector3.mk 0 0.15 0) (Vector3.mk 0 0.3 0) (Euler.mk 0 0 0)
           (Euler.mk 0 0 0) (Euler.mk 0 0 0)
           (keys false false false false false true)
           (keys false false false false false true)
           (keys false false false false false true) FIXED_DELTA);
    simpl; try reflexivity; lra.
Defined.

(** One prediction frame with the jump key down: the flag is recorded,
    and velocity and height follow the impulse or gravity, with the ground
    clamp. *)
Lemma predictStep_jump_held (refs : PlayerRefs) (input : InputState) :
  Input.jump input = true →
  let v :=
    if jumpRisingEdge refs (localPositionRef refs) input then JUMP_FORCE
    else verticalVelocity refs + GRAVITY * FIXED_DELTA in
  let newY := Vector3.y (localPositionRef refs) + v * FIXED_DELTA in
  prevJumpRef (predictStep refs input) = true ∧
  verticalVelocity (predictStep refs input)
  = (if decide (newY < 0) then 0 else v) ∧
  Vector3.y (localPositionRef (predictStep refs input))
  = (if decide (newY < 0) then 0 else newY).
Proof.
  intros Hj. cbv zeta.
  pose proof (predictStep_fields refs input) as Hf. cbv zeta in Hf.
  destruct Hf as (E1 & E2 & E3 & _). rewrite E1, E2, E3.
  pose proof (calculateClientMovement_jump_held refs (localPositionRef refs)
                (localRotationRef refs) input FIXED_DELTA Hj) as H.
  cbv zeta in H. destruct H as (H1 & H2 & H3).
  rewrite worldMoveVector_y, Rplus_0_r in H2, H3.
  split; [exact H1|]. split; [exact H2|exact H3].
Qed.

(** An example: three prediction frames from rest with the jump key held
    and nothing else: the vertical velocity is 9, then 8.9, then 8.8, and the player
    keeps rising. *)
Lemma jump_held_three_frames :
  let hold := keys false false false false false true in
  let r1 := predictStep (idleRefs false) hold in
  let r2 := predictStep r1 hold in
  let r3 := predictStep r2 hold in
  (verticalVelocity r1 = 9 ∧ Vector3.y (localPositionRef r1) = 0.15) ∧
  (verticalVelocity r2 = 8.9 ∧ Vector3.y (localPositionRef r2) = 0.15 + 8.9 / 60) ∧
  (verticalVelocity r3 = 8.8 ∧
   Vector3.y (localPositionRef r3) = 0.15 + 8.9 / 60 + 8.8 / 60).
Proof.
  cbv zeta. set (hold := keys false false false false false true).
  assert (Hj : Input.jump hold = true) by reflexivity.
  destruct (predictStep_jump_held (idleRefs false) hold Hj) as (P1 & V1 & Y1).
  set (r1 := predictStep (idleRefs false) hold) in *.
  unfold jumpRisingEdge in V1, Y1. simpl in V1, Y1.
  rewrite bool_decide_eq_true_2 in V1, Y1 by lra.
  unfold JUMP_FORCE, FIXED_DELTA in V1, Y1.
  destruct (decide _) as [H|_] in V1, Y1; [lra|].
  destruct (predictStep_jump_held r1 hold Hj) as (P2 & V2 & Y2).
  set (r2 := predictStep r1 hold) in *.
  unfold jumpRisingEdge in V2, Y2. rewrite P1, V1, Y1 in V2, Y2.
  simpl in V2, Y2. unfold GRAVITY, FIXED_DELTA in V2, Y2.
  destruct (decide _) as [H|_] in V2, Y2; [lra|].
  destruct (predictStep_jump_held r2 hold Hj) as (_ & V3 & Y3).
  set (r3 := predictStep r2 hold) in *.
  unfold jumpRisingEdge in V3, Y3. rewrite P2, V2, Y2 in V3, Y3.
  simpl in V3, Y3. unfold GRAVITY, FIXED_DELTA in V3, Y3.
  destruct (decide _) as [H|_] in V3, Y3; [lra|].
  repeat split; lra.
Qed.

(** ** Prediction as a function of its inputs *)

(** C4, as stated, fails: two component states with the same position,
    vertical velocity and yaw, given the same command (jump held, nothing
    else), predict different states when they differ in [prevJumpRef].
    With the flag clear the impulse fires (vertical velocity 9); with the
    flag set gravity pulls the player into the ground (vertical velocity
    0). *)
Lemma C4_counterexample :
  let hold := keys false false false false false true in
  predictedState (idleRefs false) = predictedState (idleRefs true) ∧
  verticalVelocity (predictStep (idleRefs false) hold) = 9 ∧
  verticalVelocity (predictStep (idleRefs true) hold) = 0 ∧
  predictedState (predictStep (idleRefs false) hold)
  ≠ predictedState (predictStep (idleRefs true) hold).
Proof.
  cbv zeta.
  set (hold := keys false false false false false true).
  assert (Hj : Input.jump hold = true) by reflexivity.
  assert (H1 : verticalVelocity (predictStep (idleRefs false) hold) = 9).
  { pose proof (predictStep_fields (idleRefs false) hold) as Hf.
    cbv zeta in Hf. destruct Hf as (_ & -> & _).
    pose proof (calculateClientMovement_jump_held (idleRefs false)
                  (localPositionRef (idleRefs false))
                  (localRotationRef (idleRefs false)) hold FIXED_DELTA Hj)
      as H. cbv zeta in H. destruct H as (_ & -> & _).
    rewrite worldMoveVector_y.
    unfold jumpRisingEdge. simpl.
    rewrite bool_decide_eq_true_2 by lra.
    unfold JUMP_FORCE, FIXED_DELTA. destruct (decide _); lra. }
  assert (H2 : verticalVelocity (predictStep (idleRefs true) hold) = 0).
  { pose proof (predictStep_fields (idleRefs true) hold) as Hf.
    cbv zeta in Hf. destruct Hf as (_ & -> & _).
    pose proof (calculateClientMovement_jump_held (idleRefs true)
                  (localPositionRef (idleRefs true))
                  (localRotationRef (idleRefs true)) hold FIXED_DELTA Hj)
      as H. cbv zeta in H. destruct H as (_ & -> & _).
    rewrite worldMoveVector_y.
    unfold jumpRisingEdge. simpl.
    unfold GRAVITY, FIXED_DELTA. destruct (decide _); lra. }
  split; [reflexivity|]. split; [exact H1|]. split; [exact H2|].
  unfold predictedState. intros H.
  assert (Hv := f_equal (fun t => snd (fst t)) H). simpl in Hv.
  rewrite H1, H2 in Hv. lra.
Qed.

(** C4 (amended): one prediction step is a function of the predicted
    position, the vertical velocity, the previous-jump flag, the yaw and
    the command (the delta is the constant 1/60): two component states
    that agree on these four give, for the same command, the same new
    position, vertical velocity, previous-jump flag and yaw, whatever
    their other refs hold. *)
Theorem C4_prediction_inputs (refs refs' : PlayerRefs) (input : InputState) :
  localPositionRef refs = localPositionRef refs' →
  verticalVelocity refs = verticalVelocity refs' →
  prevJumpRef refs = prevJumpRef refs' →
  Euler.y (localRotationRef refs) = Euler.y (localRotationRef refs') →
  predictedState (predictStep refs input)
  = predictedState (predictStep refs' input) ∧
  prevJumpRef (predictStep refs input) = prevJumpRef (predictStep refs' input).
Proof.
  intros Hpos Hv Hp Hy.
  pose proof (predictStep_fields refs input) as Hf. cbv zeta in Hf.
  pose proof (predictStep_fields refs' input) as Hf'. cbv zeta in Hf'.
  destruct Hf as (E1 & E2 & E3 & E4). destruct Hf' as (E1' & E2' & E3' & E4').
  pose proof (calculateClientMovement_reads refs refs' (localPositionRef refs)
                (localRotationRef refs) (localRotationRef refs') input
                FIXED_DELTA Hv Hp Hy) as Hr.
  cbv zeta in Hr. destruct Hr as (R1 & R2 & R3).
  unfold predictedState.
  rewrite E1, E2, E3, E4, E1', E2', E3', E4'.
  rewrite <- Hpos. rewrite R1, R2, R3, Hy. split; reflexivity.
Qed.

Lemma C4_prediction_inputs_witness :
  let refs := idleRefs false in
  let refs' :=
    mkPlayerRefs (Vector3.mk 0 0 0) (Euler.mk 0.3 0 0) 0 false
      [mkSnapshot (Vector3.mk 5 0 5) 1000] (Vector3.mk 5 0 5)
      (Vector3.mk 4 0 4) in
  let hold := keys true false false false true true in
  predictedState (predictStep refs hold)
  = predictedState (predictStep refs' hold) ∧
  prevJumpRef (predictStep refs hold) = prevJumpRef (predictStep refs' hold).
Proof.
  apply (C4_prediction_inputs (idleRefs false)
           (mkPlayerRefs (Vector3.mk 0 0 0) (Euler.mk 0.3 0 0) 0 false
              [mkSnapshot (Vector3.mk 5 0 5) 1000] (Vector3.mk 5 0 5)
              (Vector3.mk 4 0 4))
           (keys true false false false true true)); reflexivity.
Defined.

(** ** Movement direction against the tie-break table *)

Lemma sqrt2_pos : 0 < sqrt 2.
Proof. apply sqrt_lt_R0. lra. Qed.

(** One key down: the move is the unit vector of that key, scaled. *)
Lemma worldMoveVector_single (yaw : R) (inputState : InputState) (delta : R)
    (d : Direction) :
  (Input.forward inputState, Input.backward inputState,
   Input.left inputState, Input.right inputState)
  = match d with
    | DForward => (true, false, false, false)
    | DBack => (false, true, false, false)
    | DLeft => (false, false, true, false)
    | DRight => (false, false, false, true)
    end →
  worldMoveVector yaw inputState delta
  = Vector3.multiplyScalar (directionVector yaw d)
      (moveSpeed inputState * delta).
Proof.
  intros H. unfold worldMoveVector, directionVector.
  rewrite forwardVector_eq, rightVector_eq.
  pose proof (sin_cos_unit yaw) as Hu.
  destruct d; injection H as -> -> -> ->; cbv zeta;
    (destruct (decide _) as [Hl|_];
     [unfold Vector3.lengthSq in Hl; simpl in Hl; exfalso; nra|]);
    apply Vector3_eq; simpl; ring.
Qed.

(** One key of each axis down: the sum of the two unit vectors has
    squared length 2, above the 1.1 threshold, so it is normalized and the
    move is the blended diagonal. *)
Lemma worldMoveVector_diagonal (yaw : R) (inputState : InputState) (delta : R) :
  Input.forward inputState ≠ Input.backward inputState →
  Input.left inputState ≠ Input.right inputState →
  worldMoveVector yaw inputState delta
  = Vector3.multiplyScalar
      (Vector3.divideScalar
         (Vector3.add
            (directionVector yaw
               (if Input.forward inputState then DForward else DBack))
            (directionVector yaw
               (if Input.right inputState then DRight else DLeft)))
         (sqrt 2))
      (moveSpeed inputState * delta).
Proof.
  intros Hfb Hlr. unfold worldMoveVector, directionVector.
  rewrite forwardVector_eq, rightVector_eq.
  pose proof (sin_cos_unit yaw) as Hu. pose proof sqrt2_pos as H2.
  destruct (Input.forward inputState), (Input.backward inputState);
    try congruence;
    destruct (Input.left inputState), (Input.right inputState);
    try congruence; cbv zeta;
    (destruct (decide _) as [_|Hl];
     [|unfold Vector3.lengthSq in Hl; simpl in Hl; exfalso; nra]);
    unfold Vector3.normalize, Vector3.length;
    match goal with
    | |- context [sqrt (Vector3.lengthSq ?v)] =>
      replace (Vector3.lengthSq v) with 2
        by (unfold Vector3.lengthSq; simpl; nra)
    end;
    (destruct (decide (sqrt 2 = 0)) as [E|_]; [lra|]);
    apply Vector3_eq; simpl; ring.
Qed.

(** X1: with exactly one of forward and backward down the label is that
    key's, whatever the strafe keys: the first two tests of
    [determineDirection] decide, and its diagonal branches are reached
    only with forward and backward both down. *)
Lemma determineDirection_forward_axis (forward backward left right : bool) :
  forward ≠ backward →
  determineDirection forward backward left right
  = if forward then "forward" else "back".
Proof.
  intros H. destruct forward, backward; try congruence; reflexivity.
Qed.

Lemma determineDirection_forward_axis_witness :
  determineDirection true false false true = "forward" ∧
  determineDirection false true true false = "back".
Proof.
  split.
  - apply (determineDirection_forward_axis true false false true). discriminate.
  - apply (determineDirection_forward_axis false true true false). discriminate.
Defined.

(** C1, as stated, fails on the diagonals.  With forward and right down
    (yaw 0, one tick) the table says right; the move is not the right
    vector scaled, it is [(1, 0, -1) / sqrt 2] scaled, and the direction
    label is ["forward"]. *)
Lemma C1_counterexample :
  let input := keys true false false true false false in
  tieBreakTable true false false true = Some DRight ∧
  worldMoveVector 0 input FIXED_DELTA
  = Vector3.multiplyScalar
      (Vector3.divideScalar (Vector3.mk 1 0 (-1)) (sqrt 2))
      (PLAYER_SPEED * FIXED_DELTA) ∧
  worldMoveVector 0 input FIXED_DELTA
  ≠ Vector3.multiplyScalar (directionVector 0 DRight)
      (PLAYER_SPEED * FIXED_DELTA) ∧
  determineDirection true false false true = "forward" ∧
  determineDirection true false false true ≠ directionLabel DRight.
Proof.
  cbv zeta. pose proof sqrt2_pos as H2.
  assert (Hi : 0 < / sqrt 2) by (apply Rinv_0_lt_compat; exact H2).
  assert (Hm : worldMoveVector 0 (keys true false false true false false)
                 FIXED_DELTA
               = Vector3.multiplyScalar
                   (Vector3.divideScalar (Vector3.mk 1 0 (-1)) (sqrt 2))
                   (PLAYER_SPEED * FIXED_DELTA)).
  { rewrite worldMoveVector_diagonal by (simpl; congruence).
    simpl. rewrite forwardVector_eq, rightVector_eq, sin_0, cos_0.
    apply Vector3_eq; simpl; unfold moveSpeed; simpl; ring. }
  split; [reflexivity|]. split; [exact Hm|]. split.
  - rewrite Hm. simpl. rewrite rightVector_eq, sin_0, cos_0.
    intros H. apply (f_equal Vector3.z) in H. simpl in H.
    unfold PLAYER_SPEED, FIXED_DELTA, Rdiv in H. nra.
  - split; [reflexivity|]. simpl. discriminate.
Qed.

(** C1 (amended): with one movement key down the move is that key's unit
    vector (forward, back, left, right of the yaw) scaled by speed times
    delta, and the direction label is the key's; with one key of each
    axis down the move is the normalized sum of the two unit vectors,
    scaled the same way: a blended diagonal. *)
Theorem C1_move_direction_by_keys (yaw delta : R)
    (sprint jump attack castSpell : bool) (sequence : Z) :
  let input f b l r :=
    Input.mk f b l r sprint jump attack castSpell sequence in
  let k :=
    (if sprint then PLAYER_SPEED * SPRINT_MULTIPLIER else PLAYER_SPEED)
    * delta in
  let unit d := directionVector yaw d in
  let blend d1 d2 :=
    Vector3.divideScalar (Vector3.add (unit d1) (unit d2)) (sqrt 2) in
  (worldMoveVector yaw (input true false false false) delta
     = Vector3.multiplyScalar (unit DForward) k ∧
   determineDirection true false false false = "forward") ∧
  (worldMoveVector yaw (input false true false false) delta
     = Vector3.multiplyScalar (unit DBack) k ∧
   determineDirection false true false false = "back") ∧
  (worldMoveVector yaw (input false false true false) delta
     = Vector3.multiplyScalar (unit DLeft) k ∧
   determineDirection false false true false = "left") ∧
  (worldMoveVector yaw (input false false false true) delta
     = Vector3.multiplyScalar (unit DRight) k ∧
   determineDirection false false false true = "right") ∧
  worldMoveVector yaw (input true false true false) delta
    = Vector3.multiplyScalar (blend DForward DLeft) k ∧
  worldMoveVector yaw (input true false false true) delta
    = Vector3.multiplyScalar (blend DForward DRight) k ∧
  worldMoveVector yaw (input false true true false) delta
    = Vector3.multiplyScalar (blend DBack DLeft) k ∧
  worldMoveVector yaw (input false true false true) delta
    = Vector3.multiplyScalar (blend DBack DRight) k.
Proof.
  cbv zeta.
  repeat match goal with
  | |- _ ∧ _ => split
  | |- determineDirection _ _ _ _ = _ => reflexivity
  end.
  - rewrite (worldMoveVector_single yaw _ delta DForward); reflexivity.
  - rewrite (worldMoveVector_single yaw _ delta DBack); reflexivity.
  - rewrite (worldMoveVector_single yaw _ delta DLeft); reflexivity.
  - rewrite (worldMoveVector_single yaw _ delta DRight); reflexivity.
  - rewrite worldMoveVector_diagonal by (simpl; congruence). reflexivity.
  - rewrite worldMoveVector_diagonal by (simpl; congruence). reflexivity.
  - rewrite worldMoveVector_diagonal by (simpl; congruence). reflexivity.
  - rewrite worldMoveVector_diagonal by (simpl; congruence). reflexivity.
Qed.

(** ** The remote snapshot buffer *)

Lemma keepLast_app {A : Type} (n : nat) (l k : list A) :
  keepLast n (keepLast n l ++ k) = keepLast n (l ++ k).
Proof.
  unfold keepLast.
  rewrite !drop_app, drop_drop, !length_app, !length_drop.
  f_equal; f_equal; lia.
Qed.

Lemma keepLast_snoc {A : Type} (n : nat) (l : list A) (x : A) :
  keepLast (S n) (l ++ [x]) = keepLast n l ++ [x].
Proof.
  unfold keepLast. rewrite drop_app, length_app. simpl.
  replace (length l + 1 - S n)%nat with (length l - n)%nat by lia.
  replace (length l - n - length l)%nat with 0%nat by lia.
  reflexivity.
Qed.

Lemma keepLast_length {A : Type} (n : nat) (l : list A) :
  (length (keepLast n l) ≤ n)%nat.
Proof. unfold keepLast. rewrite length_drop. lia. Qed.

Lemma keepLast_short {A : Type} (n : nat) (l : list A) :
  (length l ≤ n)%nat → keepLast n l = l.
Proof.
  intros H. unfold keepLast.
  replace (length l - n)%nat with 0%nat by lia. reflexivity.
Qed.

(** A push on a buffer within capacity stays within capacity. *)
Lemma pushSnapshot_length (buffer : list Snapshot) (p : Vector3.t) (now : R) :
  (length buffer ≤ 10)%nat → (length (pushSnapshot buffer p now) ≤ 10)%nat.
Proof.
  intros H. unfold pushSnapshot.
  destruct (match last buffer with None => _ | Some _ => _ end); [|exact H].
  cbv zeta. destruct (decide _) as [Hl|Hl].
  - destruct buffer as [|b buffer]; simpl in *; [lia|].
    rewrite length_app. simpl. lia.
  - lia.
Qed.

(** A push that is taken appends the entry and keeps the last ten. *)
Lemma pushSnapshot_moved (buffer : list Snapshot) (p : Vector3.t) (now : R) :
  (length buffer ≤ 10)%nat →
  match last buffer with
  | None => True
  | Some l => Vector3.distanceTo p (pos l) > 0.001
  end →
  pushSnapshot buffer p now = keepLast 10 (buffer ++ [mkSnapshot p now]).
Proof.
  intros Hlen Hmv. unfold pushSnapshot.
  assert (Hc : match last buffer with
               | None => true
               | Some l => bool_decide (Vector3.distanceTo p (pos l) > 0.001)
               end = true).
  { destruct (last buffer); [|reflexivity].
    apply bool_decide_eq_true_2. exact Hmv. }
  rewrite Hc. cbv zeta. rewrite length_app. simpl.
  destruct (decide _) as [Hl|Hl].
  - unfold keepLast. rewrite length_app. simpl.
    replace (length buffer + 1 - 10)%nat with 1%nat by lia.
    destruct buffer; reflexivity.
  - rewrite keepLast_short; [reflexivity|]. rewrite length_app. simpl. lia.
Qed.

Lemma feedSnapshots_length (arrivals : list (Vector3.t * R))
    (buffer : list Snapshot) :
  (length buffer ≤ 10)%nat →
  (length (feedSnapshots buffer arrivals) ≤ 10)%nat.
Proof.
  revert buffer. induction arrivals as [|a rest IH]; intros buffer H.
  - exact H.
  - simpl. apply IH. apply pushSnapshot_length. exact H.
Qed.

Lemma feedSnapshots_moved (arrivals : list (Vector3.t * R))
    (buffer : list Snapshot) :
  (length buffer ≤ 10)%nat →
  eachMoved (pos <$> last buffer) arrivals →
  feedSnapshots buffer arrivals
  = keepLast 10 (buffer ++ (toSnapshot <$> arrivals)).
Proof.
  revert buffer. induction arrivals as [|a rest IH]; intros buffer Hlen Hmv.
  - simpl. rewrite app_nil_r. symmetry. apply keepLast_short. exact Hlen.
  - destruct Hmv as [Ha Hrest]. simpl.
    unfold feedSnapshots in IH.
    rewrite pushSnapshot_moved; [|exact Hlen|].
    + rewrite IH.
      * rewrite keepLast_app. rewrite <- app_assoc. reflexivity.
      * apply keepLast_length.
      * rewrite (keepLast_snoc 9), last_snoc. exact Hrest.
    + destruct (last buffer); [exact Ha|exact I].
Qed.

(** C6: a buffer within capacity never grows past 10 entries, whatever
    arrives; and when every arrival moved by more than 0.001 from the one
    before, feeding them to an empty buffer leaves the last 10 of them in
    arrival order: for 15 arrivals, the 6th to the 15th. *)
Theorem C6_buffer_keeps_last_ten (buffer : list Snapshot)
    (arrivals : list (Vector3.t * R)) :
  ((length buffer ≤ 10)%nat →
   (length (feedSnapshots buffer arrivals) ≤ 10)%nat) ∧
  (eachMoved None arrivals →
   feedSnapshots [] arrivals = keepLast 10 (toSnapshot <$> arrivals)) ∧
  (eachMoved None arrivals → length arrivals = 15%nat →
   feedSnapshots [] arrivals = drop 5 (toSnapshot <$> arrivals) ∧
   length (feedSnapshots [] arrivals) = 10%nat).
Proof.
  split; [apply feedSnapshots_length|].
  assert (Hk : eachMoved None arrivals →
               feedSnapshots [] arrivals
               = keepLast 10 (toSnapshot <$> arrivals)).
  { intros Hmv. rewrite feedSnapshots_moved; [reflexivity|simpl; lia|].
    exact Hmv. }
  split; [exact Hk|].
  intros Hmv Hlen. rewrite (Hk Hmv). unfold keepLast.
  rewrite length_fmap, Hlen. simpl.
  split; [reflexivity|].
  rewrite length_drop, length_fmap, Hlen. reflexivity.
Qed.

Lemma C6_buffer_keeps_last_ten_witness :
  (length (feedSnapshots [] marchArrivals) ≤ 10)%nat ∧
  feedSnapshots [] marchArrivals = keepLast 10 (toSnapshot <$> marchArrivals) ∧
  feedSnapshots [] marchArrivals
  = (fun k : R => mkSnapshot (Vector3.mk k 0 0) (16 * k))
      <$> [6; 7; 8; 9; 10; 11; 12; 13; 14; 15] ∧
  length (feedSnapshots [] marchArrivals) = 10%nat.
Proof.
  assert (Hmv : eachMoved None marchArrivals).
  { simpl. repeat split; dist_x; lra. }
  pose proof (C6_buffer_keeps_last_ten [] marchArrivals) as (H1 & H2 & H3).
  split; [apply H1; simpl; lia|].
  split; [apply H2; exact Hmv|].
  destruct (H3 Hmv eq_refl) as [H4 H5].
  split; [rewrite H4; reflexivity|exact H5].
Defined.

(** ** Interpolation between buffered snapshots *)

Lemma scanIndex_shift (rest : list Snapshot) (renderTime : R) (i : nat) :
  scanIndex rest renderTime i = (i + scanIndex rest renderTime 0)%nat.
Proof.
  revert i. induction rest as [|a rest IH]; intros i; simpl; [lia|].
  destruct rest as [|s1 tl]; [lia|].
  destruct (decide _); [|lia].
  rewrite (IH (S i)), (IH 1%nat). lia.
Qed.

(** What the loop has established when it stops at [n]: [n] is a valid
    index, every entry from 1 to [n] is stamped at or before the render
    time, and the entry after [n], if any, is stamped after it. *)
Lemma scanIndex_spec (rest : list Snapshot) (renderTime : R) :
  let n := scanIndex rest renderTime 0 in
  (n ≤ length rest - 1)%nat ∧
  (∀ (k : nat) (s : Snapshot),
     (k < n)%nat → rest !! S k = Some s → timestamp s <= renderTime) ∧
  (∀ s : Snapshot, rest !! S n = Some s → renderTime < timestamp s).
Proof.
  cbv zeta. induction rest as [|a rest IH].
  - simpl. split; [lia|]. split; [intros; lia|]. intros s H. discriminate.
  - destruct rest as [|s1 tl].
    + simpl. split; [lia|]. split; [intros; lia|]. intros s H. discriminate.
    + change (scanIndex (a :: s1 :: tl) renderTime 0)
        with (if decide (timestamp s1 <= renderTime)
              then scanIndex (s1 :: tl) renderTime 1 else 0%nat).
      destruct (decide _) as [Hle|Hgt].
      * rewrite scanIndex_shift.
        destruct IH as (IH1 & IH2 & IH3).
        set (n := scanIndex (s1 :: tl) renderTime 0) in *.
        split; [simpl in *; lia|]. split.
        -- intros k s Hk Hs. destruct k as [|k].
           ++ simpl in Hs. injection Hs as <-. exact Hle.
           ++ apply (IH2 k s); [lia|exact Hs].
        -- intros s Hs. apply IH3. exact Hs.
      * split; [simpl; lia|]. split; [intros; lia|].
        intros s Hs. simpl in Hs. injection Hs as <-. lra.
Qed.

(** The loop stops at the bracketing pair of a time-sorted buffer. *)
Lemma scanIndex_bracket (buffer : list Snapshot) (renderTime : R) (j : nat)
    (snap0 snap1 : Snapshot) :
  sortedByTime buffer →
  buffer !! j = Some snap0 → buffer !! S j = Some snap1 →
  timestamp snap0 <= renderTime < timestamp snap1 →
  scanIndex buffer renderTime 0 = j.
Proof.
  intros Hs H0 H1 [Hlo Hhi].
  pose proof (scanIndex_spec buffer renderTime) as Hn. cbv zeta in Hn.
  destruct Hn as (Hn1 & Hn2 & Hn3).
  set (n := scanIndex buffer renderTime 0) in *.
  destruct (lt_eq_lt_dec n j) as [[Hlt|Heq]|Hgt]; [|exact Heq|].
  - assert (Hlen : (S n < length buffer)%nat).
    { apply lookup_lt_Some in H0. lia. }
    destruct (lookup_lt_is_Some_2 buffer (S n) Hlen) as [s Hsn].
    pose proof (Hn3 s Hsn) as Hafter.
    pose proof (Hs (S n) j s snap0 ltac:(lia) Hsn H0). lra.
  - pose proof (Hn2 j snap1 Hgt H1). lra.
Qed.

(** The loop runs to the last index when the render time is at or past
    the newest entry of a time-sorted buffer. *)
Lemma scanIndex_past_newest (buffer : list Snapshot) (renderTime : R)
    (newest : Snapshot) :
  sortedByTime buffer → last buffer = Some newest →
  timestamp newest <= renderTime →
  scanIndex buffer renderTime 0 = (length buffer - 1)%nat.
Proof.
  intros Hs Hl Hle.
  pose proof (scanIndex_spec buffer renderTime) as Hn. cbv zeta in Hn.
  destruct Hn as (Hn1 & _ & Hn3).
  set (n := scanIndex buffer renderTime 0) in *.
  destruct (decide (n = length buffer - 1)%nat) as [E|Hne]; [exact E|].
  exfalso.
  assert (Hlen : (S n < length buffer)%nat) by lia.
  destruct (lookup_lt_is_Some_2 buffer (S n) Hlen) as [s Hsn].
  pose proof (Hn3 s Hsn) as Hafter.
  rewrite last_lookup in Hl.
  pose proof (Hs (S n) (pred (length buffer)) s newest ltac:(lia) Hsn Hl).
  lra.
Qed.

(** Pushing at a clock reading not before the newest entry keeps the
    buffer time-sorted, so the buffer of a frame loop driven by a
    monotonic clock is always time-sorted. *)
Lemma pushSnapshot_sorted (buffer : list Snapshot) (p : Vector3.t) (now : R) :
  sortedByTime buffer →
  (∀ newest : Snapshot, last buffer = Some newest → timestamp newest <= now) →
  sortedByTime (pushSnapshot buffer p now).
Proof.
  intros Hs Hnow.
  assert (Happ : sortedByTime (buffer ++ [mkSnapshot p now])).
  { intros i j s s' Hij Hi Hj.
    destruct (decide (j < length buffer)%nat) as [Hjl|Hjl].
    - rewrite lookup_app_l in Hi, Hj by lia.
      apply (Hs i j); assumption.
    - rewrite lookup_app_r in Hj by lia.
      destruct (j - length buffer)%nat as [|n] eqn:Ej;
        [|destruct n; discriminate].
      injection Hj as <-. simpl.
      destruct (decide (i < length buffer)%nat) as [Hil|Hil].
      + rewrite lookup_app_l in Hi by lia.
        destruct (lookup_lt_is_Some_2 buffer (pred (length buffer)))
          as [l El]; [lia|].
        pose proof (Hs i (pred (length buffer)) s l ltac:(lia) Hi El).
        rewrite <- last_lookup in El. pose proof (Hnow l El). lra.
      + rewrite lookup_app_r in Hi by lia.
        destruct (i - length buffer)%nat as [|n] eqn:Ei;
          [|destruct n; discriminate].
        injection Hi as <-. simpl. lra. }
  unfold pushSnapshot.
  destruct (match last buffer with None => _ | Some _ => _ end); [|exact Hs].
  cbv zeta. destruct (decide _); [|exact Happ].
  intros i j s s' Hij Hi Hj.
  rewrite lookup_tail in Hi, Hj.
  apply (Happ (S i) (S j)); [lia|assumption|assumption].
Qed.

(** A buffer read never fails: the frame always has a target. *)
Lemma interpolateTarget_total (buffer : list Snapshot)
    (serverPosition : Vector3.t) (renderTime : R) :
  is_Some (interpolateTarget buffer serverPosition renderTime).
Proof.
  unfold interpolateTarget.
  destruct (decide (2 ≤ length buffer)%nat) as [H2|H2].
  - cbv zeta. destruct (decide _) as [Hi|Hi].
    + destruct (lookup_lt_is_Some_2 buffer (scanIndex buffer renderTime 0))
        as [s0 E0]; [lia|].
      destruct (lookup_lt_is_Some_2 buffer (scanIndex buffer renderTime 0 + 1))
        as [s1 E1]; [lia|].
      rewrite E0, E1. simpl. eauto.
    + destruct (lookup_lt_is_Some_2 buffer (length buffer - 1))
        as [s E]; [lia|].
      rewrite E. simpl. eauto.
  - destruct (decide _) as [H1|H1]; [|eauto].
    destruct (lookup_lt_is_Some_2 buffer 0) as [s E]; [lia|].
    rewrite E. simpl. eauto.
Qed.

Lemma interpolateTarget_pair (buffer : list Snapshot)
    (serverPosition : Vector3.t) (renderTime : R) (j : nat)
    (snap0 snap1 : Snapshot) :
  scanIndex buffer renderTime 0 = j →
  buffer !! j = Some snap0 → buffer !! S j = Some snap1 →
  interpolateTarget buffer serverPosition renderTime
  = Some (Vector3.lerpVectors (pos snap0) (pos snap1)
            (Rmin 1 (Rmax 0 ((renderTime - timestamp snap0)
                             / (timestamp snap1 - timestamp snap0))))).
Proof.
  intros Hj H0 H1. unfold interpolateTarget.
  pose proof (lookup_lt_Some _ _ _ H1) as Hlen.
  destruct (decide (2 ≤ length buffer)%nat) as [_|H2]; [|lia].
  cbv zeta. rewrite Hj.
  destruct (decide (j < length buffer - 1)%nat) as [_|Hn]; [|lia].
  replace (j + 1)%nat with (S j) by lia.
  rewrite H0, H1. reflexivity.
Qed.

(** C5: the remote branch samples the buffer at [now - 100] and writes
    the result to the target.  On a time-sorted buffer: a pair with
    [snap0.timestamp <= renderTime < snap1.timestamp] is the pair used,
    the position is the linear blend of the two with
    [t = (renderTime - t0) / (t1 - t0)], which lies in [0, 1) and is what
    the clamp returns; before the oldest entry the clamp gives the oldest
    position; at or past the newest entry the target is the newest
    position; a single entry is used as it is; and the two snapshots
    [(0,0,0)] at 1000 and [(10,0,0)] at 1100 sampled at 1050 give
    [(5,0,0)]. *)
Theorem C5_remote_interpolation (refs : PlayerRefs) (playerData : PlayerData)
    (now dt : R) (buffer : list Snapshot) (serverPosition : Vector3.t)
    (renderTime : R) :
  (∃ target : Vector3.t,
     interpolateTarget
       (pushSnapshot (remotePositionBuffer refs) (serverPositionOf playerData)
          now)
       (serverPositionOf playerData) (now - 100) = Some target ∧
     remoteTargetPosition <$> remoteFrame refs playerData now dt
     = Some target) ∧
  (∀ (j : nat) (snap0 snap1 : Snapshot),
     sortedByTime buffer →
     buffer !! j = Some snap0 → buffer !! S j = Some snap1 →
     timestamp snap0 <= renderTime < timestamp snap1 →
     let t := (renderTime - timestamp snap0)
              / (timestamp snap1 - timestamp snap0) in
     0 <= t < 1 ∧ Rmin 1 (Rmax 0 t) = t ∧
     interpolateTarget buffer serverPosition renderTime
     = Some (Vector3.lerpVectors (pos snap0) (pos snap1) t)) ∧
  (∀ (snap0 snap1 : Snapshot) (rest : list Snapshot),
     buffer = snap0 :: snap1 :: rest →
     renderTime < timestamp snap0 < timestamp snap1 →
     interpolateTarget buffer serverPosition renderTime = Some (pos snap0)) ∧
  (∀ newest : Snapshot,
     (2 ≤ length buffer)%nat → sortedByTime buffer →
     last buffer = Some newest → timestamp newest <= renderTime →
     interpolateTarget buffer serverPosition renderTime = Some (pos newest)) ∧
  (∀ only : Snapshot,
     buffer = [only] →
     interpolateTarget buffer serverPosition renderTime = Some (pos only)) ∧
  interpolateTarget
    [mkSnapshot (Vector3.mk 0 0 0) 1000; mkSnapshot (Vector3.mk 10 0 0) 1100]
    serverPosition 1050
  = Some (Vector3.mk 5 0 0).
Proof.
  split.
  { destruct (interpolateTarget_total
                (pushSnapshot (remotePositionBuffer refs)
                   (serverPositionOf playerData) now)
                (serverPositionOf playerData) (now - 100)) as [target Ht].
    exists target. split; [exact Ht|].
    unfold remoteFrame. cbv zeta. simpl. rewrite Ht. reflexivity. }
  split.
  { intros j snap0 snap1 Hs H0 H1 [Hlo Hhi]. cbv zeta.
    assert (Hd : 0 < timestamp snap1 - timestamp snap0) by lra.
    assert (Ht : 0 <= (renderTime - timestamp snap0)
                      / (timestamp snap1 - timestamp snap0) < 1).
    { split.
      - unfold Rdiv. apply Rmult_le_pos; [lra|].
        apply Rlt_le, Rinv_0_lt_compat. exact Hd.
      - apply (Rmult_lt_reg_r (timestamp snap1 - timestamp snap0));
          [exact Hd|].
        unfold Rdiv. rewrite Rmult_assoc, Rinv_l by lra. lra. }
    assert (Hc : Rmin 1 (Rmax 0 ((renderTime - timestamp snap0)
                                 / (timestamp snap1 - timestamp snap0)))
                 = (renderTime - timestamp snap0)
                   / (timestamp snap1 - timestamp snap0)).
    { rewrite Rmax_right by lra. rewrite Rmin_right by lra. reflexivity. }
    split; [exact Ht|]. split; [exact Hc|].
    rewrite (interpolateTarget_pair buffer serverPosition renderTime j
               snap0 snap1); [rewrite Hc; reflexivity| |exact H0|exact H1].
    apply (scanIndex_bracket buffer renderTime j snap0 snap1); auto. }
  split.
  { intros snap0 snap1 rest -> [Hlo Hhi].
    rewrite (interpolateTarget_pair _ serverPosition renderTime 0
               snap0 snap1); [|simpl|reflexivity|reflexivity].
    - assert (Hneg : (renderTime - timestamp snap0)
                     / (timestamp snap1 - timestamp snap0) < 0).
      { unfold Rdiv.
        assert (0 < / (timestamp snap1 - timestamp snap0))
          by (apply Rinv_0_lt_compat; lra).
        nra. }
      rewrite Rmax_left by lra. rewrite Rmin_right by lra.
      f_equal. apply Vector3_eq; simpl; ring.
    - destruct (decide _) as [Hle|_]; [lra|reflexivity]. }
  split.
  { intros newest Hlen Hs Hl Hle. unfold interpolateTarget.
    destruct (decide (2 ≤ length buffer)%nat) as [_|H2]; [|lia].
    cbv zeta.
    rewrite (scanIndex_past_newest buffer renderTime newest Hs Hl Hle).
    destruct (decide _) as [Hi|_]; [lia|].
    rewrite last_lookup in Hl.
    replace (length buffer - 1)%nat with (pred (length buffer)) by lia.
    rewrite Hl. reflexivity. }
  split.
  { intros only ->. reflexivity. }
  rewrite (interpolateTarget_pair _ serverPosition 1050 0
             (mkSnapshot (Vector3.mk 0 0 0) 1000)
             (mkSnapshot (Vector3.mk 10 0 0) 1100));
    [|simpl|reflexivity|reflexivity].
  - simpl. replace ((1050 - 1000) / (1100 - 1000)) with 0.5 by lra.
    rewrite Rmax_right by lra. rewrite Rmin_right by lra.
    f_equal. apply Vector3_eq; simpl; lra.
  - destruct (decide _) as [Hle|_]; [lra|reflexivity].
Qed.

Lemma C5_remote_interpolation_witness :
  interpolateTarget exampleBuffer (Vector3.mk 7 7 7) 1050
  = Some (Vector3.lerpVectors (Vector3.mk 0 0 0) (Vector3.mk 10 0 0)
            ((1050 - 1000) / (1100 - 1000))) ∧
  interpolateTarget exampleBuffer (Vector3.mk 7 7 7) 900
  = Some (Vector3.mk 0 0 0) ∧
  interpolateTarget exampleBuffer (Vector3.mk 7 7 7) 1200
  = Some (Vector3.mk 10 0 0) ∧
  interpolateTarget [mkSnapshot (Vector3.mk 3 0 4) 1000] (Vector3.mk 7 7 7) 1050
  = Some (Vector3.mk 3 0 4) ∧
  interpolateTarget exampleBuffer (Vector3.mk 7 7 7) 1050
  = Some (Vector3.mk 5 0 0).
Proof.
  assert (Hs : sortedByTime exampleBuffer).
  { intros i j s s' Hij Hi Hj.
    destruct i as [|[|i]], j as [|[|j]]; simpl in Hi, Hj;
      try discriminate; try lia;
      injection Hi as <-; injection Hj as <-; simpl; lra. }
  pose (pd := mkPlayerData (Vector3.mk 7 7 7) (Vector3.mk 0 0 0) 0).
  split; [|split; [|split; [|split]]].
  - destruct (C5_remote_interpolation (idleRefs false) pd 1150 (1 / 60)
                exampleBuffer (Vector3.mk 7 7 7) 1050)
      as (_ & H & _).
    destruct (H 0%nat (mkSnapshot (Vector3.mk 0 0 0) 1000)
                (mkSnapshot (Vector3.mk 10 0 0) 1100) Hs eq_refl eq_refl)
      as (_ & _ & Ht); [simpl; lra|exact Ht].
  - destruct (C5_remote_interpolation (idleRefs false) pd 1000 (1 / 60)
                exampleBuffer (Vector3.mk 7 7 7) 900)
      as (_ & _ & H & _).
    apply (H _ _ [] eq_refl). simpl. lra.
  - destruct (C5_remote_interpolation (idleRefs false) pd 1300 (1 / 60)
                exampleBuffer (Vector3.mk 7 7 7) 1200)
      as (_ & _ & _ & H & _).
    apply (H (mkSnapshot (Vector3.mk 10 0 0) 1100));
      [simpl; lia|exact Hs|reflexivity|simpl; lra].
  - destruct (C5_remote_interpolation (idleRefs false) pd 1150 (1 / 60)
                [mkSnapshot (Vector3.mk 3 0 4) 1000] (Vector3.mk 7 7 7) 1050)
      as (_ & _ & _ & _ & H & _).
    apply (H (mkSnapshot (Vector3.mk 3 0 4) 1000)). reflexivity.
  - destruct (C5_remote_interpolation (idleRefs false) pd 1150 (1 / 60)
                exampleBuffer (Vector3.mk 7 7 7) 1050)
      as (_ & _ & _ & _ & _ & H).
    exact H.
Defined.

(** ** The pending send-timestamp table *)

(** After [n] ticks with no update in between: the sequence counter is
    [n], the last sent input carries it, and the table holds one entry
    for each of the sequences 1 to [n]. *)
Lemma runTicks_table (clock : nat → R) (n : nat) :
  let refs := App.runTicks App.initial clock n in
  Input.sequence (App.currentInputRef refs) = Z.of_nat n ∧
  (∀ l : InputState,
     App.lastSentInputState refs = Some l → Input.sequence l = Z.of_nat n) ∧
  size (App.inputTimestampsRef refs) = n ∧
  (∀ k : Z,
     is_Some (App.inputTimestampsRef refs !! k) ↔ (1 ≤ k ≤ Z.of_nat n)%Z).
Proof.
  cbv zeta. induction n as [|n IH].
  - simpl. split; [reflexivity|]. split; [intros l H; discriminate|].
    split; [apply map_size_empty|].
    intros k. rewrite lookup_empty. split; [intros [x H]; discriminate|lia].
  - destruct IH as (Hseq & Hlast & Hsize & Hdom).
    simpl. set (refs := App.runTicks App.initial clock n) in *.
    unfold App.intervalTick. simpl. unfold App.sendInput. simpl.
    set (input := Input.mk _ _ _ _ _ _ _ _ _).
    assert (Hch : match App.lastSentInputState refs with
                  | None => true
                  | Some l => bool_decide (input ≠ l)
                  end = true).
    { destruct (App.lastSentInputState refs) as [l|] eqn:El; [|reflexivity].
      apply bool_decide_eq_true_2. intros E.
      apply (f_equal Input.sequence) in E. simpl in E.
      rewrite (Hlast l eq_refl) in E. lia. }
    rewrite Hch. simpl. rewrite Hseq.
    assert (Hfresh : App.inputTimestampsRef refs !! (Z.of_nat n + 1)%Z = None).
    { apply eq_None_not_Some. rewrite Hdom. lia. }
    split; [lia|]. split; [intros l [= <-]; simpl; lia|].
    split; [rewrite map_size_insert_None by exact Hfresh; lia|].
    intros k. rewrite lookup_insert_is_Some, Hdom. lia.
Qed.

(** One update removes at most two entries of the table. *)
Lemma onUpdate_size (refs : App.Refs) (newPlayer : PlayerData) (now : R) :
  (size (App.inputTimestampsRef refs) - 2
   ≤ size (App.inputTimestampsRef (App.onUpdate refs newPlayer now)))%nat.
Proof.
  unfold App.onUpdate. cbv zeta.
  destruct (decide _); [lia|].
  destruct (App.inputTimestampsRef refs !! lastInputSeq newPlayer) eqn:E;
    [|lia].
  destruct (decide _); [lia|]. simpl.
  destruct (decide _); rewrite ?map_size_delete, ?E;
    repeat match goal with
    | |- context [match ?m !! ?k with _ => _ end] => destruct (m !! k)
    end; simpl; lia.
Qed.

(** An update leaves every entry but the acknowledged sequence and the
    one exactly 100 below it. *)
Lemma onUpdate_keeps (refs : App.Refs) (newPlayer : PlayerData) (now : R)
    (k : Z) :
  k ≠ lastInputSeq newPlayer → k ≠ (lastInputSeq newPlayer - 100)%Z →
  App.inputTimestampsRef (App.onUpdate refs newPlayer now) !! k
  = App.inputTimestampsRef refs !! k.
Proof.
  intros H1 H2. unfold App.onUpdate. cbv zeta.
  destruct (decide _); [reflexivity|].
  destruct (App.inputTimestampsRef refs !! lastInputSeq newPlayer) eqn:E;
    [|reflexivity].
  destruct (decide _); [reflexivity|]. simpl.
  destruct (decide _); rewrite ?lookup_delete_ne by congruence; reflexivity.
Qed.

(** C8 (what the code does): after [n] sends with no update the table
    holds [n] entries, one per sequence sent; an update, whatever it
    acknowledges, leaves at least [n - 2] of them; and it leaves every
    entry that is neither the acknowledged sequence nor the one exactly
    100 below it, however old.  So the table is not bounded by 100. *)
Theorem C8_pending_table_not_bounded (clock : nat → R) (n : nat)
    (newPlayer : PlayerData) (now : R) :
  let refs := App.runTicks App.initial clock n in
  let refs' := App.onUpdate refs newPlayer now in
  size (App.inputTimestampsRef refs) = n ∧
  (n - 2 ≤ size (App.inputTimestampsRef refs'))%nat ∧
  (∀ k : Z,
     (1 ≤ k ≤ Z.of_nat n)%Z →
     k ≠ lastInputSeq newPlayer → k ≠ (lastInputSeq newPlayer - 100)%Z →
     is_Some (App.inputTimestampsRef refs' !! k)).
Proof.
  cbv zeta.
  pose proof (runTicks_table clock n) as Ht. cbv zeta in Ht.
  destruct Ht as (_ & _ & Hsize & Hdom).
  split; [exact Hsize|]. split.
  - pose proof (onUpdate_size (App.runTicks App.initial clock n) newPlayer now).
    lia.
  - intros k Hk H1 H2. rewrite onUpdate_keeps by assumption.
    apply Hdom. exact Hk.
Qed.

(** 300 sends, then an update that acknowledges sequence 300: the entry
    of sequence 1 is still in the table, with at least 298 others. *)
Lemma C8_pending_table_not_bounded_witness :
  let clock (k : nat) : R := 1000 + 16 * INR k in
  let refs := App.runTicks App.initial clock 300 in
  let ack := mkPlayerData (Vector3.mk 0 0 0) (Vector3.mk 0 0 0) 300 in
  let refs' := App.onUpdate refs ack 6000 in
  size (App.inputTimestampsRef refs) = 300%nat ∧
  (298 ≤ size (App.inputTimestampsRef refs'))%nat ∧
  is_Some (App.inputTimestampsRef refs' !! 1%Z).
Proof.
  cbv zeta.
  pose proof (C8_pending_table_not_bounded (fun k => 1000 + 16 * INR k) 300
                (mkPlayerData (Vector3.mk 0 0 0) (Vector3.mk 0 0 0) 300) 6000)
    as H.
  cbv zeta in H. destruct H as (H1 & H2 & H3).
  split; [exact H1|]. split; [exact H2|].
  apply H3; simpl; lia.
Defined.

(** * Further properties of the client code *)

(** ** Prediction: ground and speed *)

(** X2: a prediction call never puts the player below the ground: from a
    height of at least 0, or with a movement key or the jump key down,
    the returned height is at least 0.  The only way to stay below is
    the skipped call: no key down and a negative height, which is
    returned as it is. *)
Theorem calculateClientMovement_above_ground (refs : PlayerRefs)
    (currentPos : Vector3.t) (currentRot : Euler.t) (inputState : InputState)
    (delta : R) :
  let hasInput :=
    Input.forward inputState || Input.backward inputState
    || Input.left inputState || Input.right inputState in
  let out := calculateClientMovement refs currentPos currentRot
               inputState delta in
  (0 <= Vector3.y currentPos ∨ hasInput = true ∨ Input.jump inputState = true →
   0 <= Vector3.y (fst out)) ∧
  (hasInput = false → Input.jump inputState = false →
   Vector3.y currentPos < 0 → fst out = currentPos).
Proof.
  cbv zeta. unfold calculateClientMovement.
  destruct (Input.forward inputState || Input.backward inputState
            || Input.left inputState || Input.right inputState) eqn:Ei;
    destruct (Input.jump inputState) eqn:Ej; simpl.
  - split; [|intros; discriminate]. intros _.
    destruct (decide _); simpl; lra.
  - split; [|intros; discriminate]. intros _.
    destruct (decide _); simpl; lra.
  - split; [|intros; discriminate]. intros _.
    destruct (decide _); simpl; lra.
  - destruct (bool_decide (Vector3.y currentPos <= 0)) eqn:Ey.
    + simpl. split; [|reflexivity].
      intros [H|[H|H]]; [exact H|discriminate|discriminate].
    + apply bool_decide_eq_false_1 in Ey. simpl.
      split; [|intros _ _ H; lra]. intros _.
      destruct (decide _); simpl; lra.
Qed.

Lemma calculateClientMovement_above_ground_witness :
  0 <= Vector3.y
         (fst (calculateClientMovement (idleRefs false) (Vector3.mk 0 0.05 0)
                 (Euler.mk 0 0 0) (keys true false false false false false)
                 FIXED_DELTA)) ∧
  fst (calculateClientMovement (idleRefs false) (Vector3.mk 0 (-1) 0)
         (Euler.mk 0 0 0) (keys false false false false false false)
         FIXED_DELTA)
  = Vector3.mk 0 (-1) 0.
Proof.
  split.
  - apply (proj1 (calculateClientMovement_above_ground (idleRefs false)
                    (Vector3.mk 0 0.05 0) (Euler.mk 0 0 0)
                    (keys true false false false false false) FIXED_DELTA)).
    left. simpl. lra.
  - apply (proj2 (calculateClientMovement_above_ground (idleRefs false)
                    (Vector3.mk 0 (-1) 0) (Euler.mk 0 0 0)
                    (keys false false false false false false) FIXED_DELTA));
      simpl; try reflexivity; lra.
Defined.

Lemma worldMoveVector_netDirection (yaw : R) (inputState : InputState)
    (delta : R) :
  worldMoveVector yaw inputState delta
  = Vector3.multiplyScalar
      (if decide (Vector3.lengthSq (netDirection yaw inputState) > 1.1)
       then Vector3.normalize (netDirection yaw inputState)
       else netDirection yaw inputState)
      (moveSpeed inputState * delta).
Proof. reflexivity. Qed.

Lemma length_multiplyScalar (v : Vector3.t) (k : R) :
  Vector3.length (Vector3.multiplyScalar v k) = Rabs k * Vector3.length v.
Proof.
  unfold Vector3.length.
  replace (Vector3.lengthSq (Vector3.multiplyScalar v k))
    with (Rsqr k * Vector3.lengthSq v)
    by (unfold Vector3.lengthSq, Rsqr; simpl; ring).
  rewrite sqrt_mult_alt by apply Rle_0_sqr.
  rewrite sqrt_Rsqr_abs. reflexivity.
Qed.

Lemma lengthSq_nonneg (v : Vector3.t) : 0 <= Vector3.lengthSq v.
Proof.
  unfold Vector3.lengthSq.
  pose proof (Rle_0_sqr (Vector3.x v)). pose proof (Rle_0_sqr (Vector3.y v)).
  pose proof (Rle_0_sqr (Vector3.z v)). unfold Rsqr in *. lra.
Qed.

Lemma length_normalize (v : Vector3.t) :
  0 < Vector3.lengthSq v → Vector3.length (Vector3.normalize v) = 1.
Proof.
  intros H.
  assert (Hl : 0 < Vector3.length v) by (apply sqrt_lt_R0; exact H).
  unfold Vector3.normalize.
  destruct (decide (Vector3.length v = 0)) as [E|_]; [lra|].
  unfold Vector3.divideScalar. rewrite length_multiplyScalar.
  rewrite Rabs_right.
  - unfold Rdiv. rewrite Rmult_1_l. apply Rinv_l. lra.
  - apply Rle_ge. unfold Rdiv. rewrite Rmult_1_l.
    apply Rlt_le, Rinv_0_lt_compat. exact Hl.
Qed.

(** The squared length of the net direction counts the axes on which
    exactly one of the two opposite keys is down. *)
Lemma netDirection_lengthSq (yaw : R) (inputState : InputState) :
  Vector3.lengthSq (netDirection yaw inputState)
  = (if xorb (Input.forward inputState) (Input.backward inputState)
     then 1 else 0)
    + (if xorb (Input.left inputState) (Input.right inputState)
       then 1 else 0).
Proof.
  unfold netDirection. rewrite forwardVector_eq, rightVector_eq.
  pose proof (sin_cos_unit yaw) as Hu.
  destruct (Input.forward inputState), (Input.backward inputState),
    (Input.left inputState), (Input.right inputState);
    unfold Vector3.lengthSq; simpl; nra.
Qed.

Lemma moveSpeed_pos (inputState : InputState) : 0 < moveSpeed inputState.
Proof.
  unfold moveSpeed, PLAYER_SPEED, SPRINT_MULTIPLIER.
  destruct (Input.sprint inputState); lra.
Qed.

(** X3: the planar move has the same length in every direction.  With
    opposite keys cancelling on both axes the move is the zero vector;
    otherwise its length is speed times delta, whether one axis or both
    are active, where the speed is 7.5, or 13.5 with sprint. *)
Theorem worldMoveVector_length (yaw : R) (inputState : InputState) (delta : R) :
  (xorb (Input.forward inputState) (Input.backward inputState) = false →
   xorb (Input.left inputState) (Input.right inputState) = false →
   worldMoveVector yaw inputState delta = Vector3.zero) ∧
  (0 <= delta →
   xorb (Input.forward inputState) (Input.backward inputState)
   || xorb (Input.left inputState) (Input.right inputState) = true →
   Vector3.length (worldMoveVector yaw inputState delta)
   = moveSpeed inputState * delta ∧
   moveSpeed inputState = (if Input.sprint inputState then 13.5 else 7.5)).
Proof.
  split.
  - intros Hfb Hlr. unfold worldMoveVector.
    rewrite forwardVector_eq, rightVector_eq.
    pose proof (sin_cos_unit yaw) as Hu.
    destruct (Input.forward inputState), (Input.backward inputState);
      try discriminate;
      destruct (Input.left inputState), (Input.right inputState);
      try discriminate; cbv zeta;
      (destruct (decide _) as [Hl|_];
       [unfold Vector3.lengthSq in Hl; simpl in Hl; exfalso; nra|]);
      apply Vector3_eq; simpl; ring.
  - intros Hd Hx. split.
    + rewrite worldMoveVector_netDirection, length_multiplyScalar.
      pose proof (moveSpeed_pos inputState) as Hs.
      rewrite Rabs_right by (apply Rle_ge, Rmult_le_pos; lra).
      pose proof (netDirection_lengthSq yaw inputState) as Hn.
      destruct (decide _) as [Hl|Hl].
      * rewrite length_normalize by lra. ring.
      * assert (E : Vector3.lengthSq (netDirection yaw inputState) = 1).
        { rewrite Hn in Hl |- *.
          destruct (xorb (Input.forward inputState) (Input.backward inputState)),
            (xorb (Input.left inputState) (Input.right inputState));
            try discriminate; lra. }
        unfold Vector3.length. rewrite E, sqrt_1. ring.
    + unfold moveSpeed, PLAYER_SPEED, SPRINT_MULTIPLIER.
      destruct (Input.sprint inputState); lra.
Qed.

Lemma worldMoveVector_length_witness :
  worldMoveVector 0.7 (keys true true false false true false) FIXED_DELTA
  = Vector3.zero ∧
  Vector3.length
    (worldMoveVector 0.7 (keys true false true false true false) FIXED_DELTA)
  = moveSpeed (keys true false true false true false) * FIXED_DELTA ∧
  moveSpeed (keys true false true false true false) = 13.5.
Proof.
  split.
  - apply (proj1 (worldMoveVector_length 0.7
                    (keys true true false false true false) FIXED_DELTA));
      reflexivity.
  - apply (proj2 (worldMoveVector_length 0.7
                    (keys true false true false true false) FIXED_DELTA));
      [unfold FIXED_DELTA; lra|reflexivity].
Defined.

(** ** Reconciliation: the error only shrinks *)

(** A blend towards [b] scales the distance to [b] by [|1 - alpha|]. *)
Lemma distanceTo_lerp (a b : Vector3.t) (alpha : R) :
  Vector3.distanceTo (Vector3.lerp a b alpha) b
  = Rabs (1 - alpha) * Vector3.distanceTo a b.
Proof.
  unfold Vector3.distanceTo.
  replace (Vector3.distanceToSquared (Vector3.lerp a b alpha) b)
    with (Rsqr (1 - alpha) * Vector3.distanceToSquared a b)
    by (unfold Vector3.distanceToSquared, Rsqr; simpl; ring).
  rewrite sqrt_mult_alt by apply Rle_0_sqr.
  rewrite sqrt_Rsqr_abs. reflexivity.
Qed.

Lemma reconcile_contracts (p s : Vector3.t) :
  Vector3.distanceTo (reconcile p s) s <= 0.95 * Vector3.distanceTo p s.
Proof.
  pose proof (distanceTo_nonneg p s) as Hd.
  destruct (decide (Vector3.distanceTo p s > 1)) as [H1|H1].
  - rewrite reconcile_snap by exact H1. rewrite distanceTo_self. lra.
  - destruct (decide (Vector3.distanceTo p s > 0.2)) as [H2|H2].
    + rewrite reconcile_aggressive by lra. rewrite distanceTo_lerp.
      set (f := Rmin 0.3 (0.15 + Vector3.distanceTo p s * 0.3)).
      assert (Hf : 0.21 <= f <= 0.3).
      { unfold f. split; [apply Rmin_glb; lra|apply Rmin_l]. }
      rewrite Rabs_right by lra. nra.
    + rewrite reconcile_gentle by lra. rewrite distanceTo_lerp.
      rewrite Rabs_right by lra. lra.
Qed.

(** X4: reconciliation never increases the error.  One pass leaves at
    most 95% of the distance to the server position (nothing after a
    snap, at most 79% in the middle tier), so [n] passes against the same
    server position leave at most [0.95 ^ n] of it. *)
Theorem reconcile_error_decays (p s : Vector3.t) (n : nat) :
  Vector3.distanceTo (Nat.iter n (fun q => reconcile q s) p) s
  <= 0.95 ^ n * Vector3.distanceTo p s ∧
  (0.2 < Vector3.distanceTo p s →
   Vector3.distanceTo (reconcile p s) s <= 0.79 * Vector3.distanceTo p s).
Proof.
  split.
  - induction n as [|n IH]; simpl; [lra|].
    pose proof (reconcile_contracts (Nat.iter n (fun q => reconcile q s) p) s).
    nra.
  - intros Hd.
    destruct (decide (Vector3.distanceTo p s > 1)) as [H1|H1].
    + rewrite reconcile_snap by exact H1. rewrite distanceTo_self. lra.
    + rewrite reconcile_aggressive by lra. rewrite distanceTo_lerp.
      set (f := Rmin 0.3 (0.15 + Vector3.distanceTo p s * 0.3)).
      assert (Hf : 0.21 <= f <= 0.3).
      { unfold f. split; [apply Rmin_glb; lra|apply Rmin_l]. }
      rewrite Rabs_right by lra. nra.
Qed.

Lemma reconcile_error_decays_witness :
  Vector3.distanceTo
    (Nat.iter 3 (fun q => reconcile q (Vector3.mk 0.5 0 0)) (Vector3.mk 0 0 0))
    (Vector3.mk 0.5 0 0)
  <= 0.95 ^ 3 * Vector3.distanceTo (Vector3.mk 0 0 0) (Vector3.mk 0.5 0 0) ∧
  Vector3.distanceTo (reconcile (Vector3.mk 0 0 0) (Vector3.mk 0.5 0 0))
    (Vector3.mk 0.5 0 0)
  <= 0.79 * Vector3.distanceTo (Vector3.mk 0 0 0) (Vector3.mk 0.5 0 0).
Proof.
  split.
  - apply (proj1 (reconcile_error_decays (Vector3.mk 0 0 0)
                    (Vector3.mk 0.5 0 0) 3)).
  - apply (proj2 (reconcile_error_decays (Vector3.mk 0 0 0)
                    (Vector3.mk 0.5 0 0) 3)).
    dist_x. lra.
Defined.



(** ** The remote buffer: what a push keeps true *)

Lemma pushSnapshot_last (buffer : list Snapshot) (p : Vector3.t) (now : R) :
  ∃ l : Snapshot,
    last (pushSnapshot buffer p now) = Some l ∧
    Vector3.distanceTo p (pos l) <= 0.001.
Proof.
  unfold pushSnapshot.
  destruct (last buffer) as [l|] eqn:El.
  - destruct (bool_decide (Vector3.distanceTo p (pos l) > 0.001)) eqn:Ed.
    + exists (mkSnapshot p now). simpl. rewrite distanceTo_self.
      split; [|lra].
      destruct (decide _) as [Hl|_]; [|apply last_snoc].
      destruct buffer as [|b buffer]; [discriminate|].
      simpl. apply last_snoc.
    + exists l. apply bool_decide_eq_false_1 in Ed. split; [exact El|lra].
  - exists (mkSnapshot p now). simpl. rewrite distanceTo_self.
    split; [|lra].
    destruct buffer as [|b buffer]; [reflexivity|].
    apply last_None in El. discriminate.
Qed.

(** X6: after a push the newest entry of the buffer is within 0.001 of
    the pushed server position, and pushing the same position again, at
    any later time, changes nothing: a remote player that stands still
    adds no entries. *)
Theorem pushSnapshot_tracks_server (buffer : list Snapshot) (p : Vector3.t)
    (now later : R) :
  (∃ l : Snapshot,
     last (pushSnapshot buffer p now) = Some l ∧
     Vector3.distanceTo p (pos l) <= 0.001) ∧
  pushSnapshot (pushSnapshot buffer p now) p later = pushSnapshot buffer p now.
Proof.
  split; [apply pushSnapshot_last|].
  destruct (pushSnapshot_last buffer p now) as (l & Hl & Hd).
  unfold pushSnapshot at 1. rewrite Hl.
  rewrite bool_decide_eq_false_2 by lra. reflexivity.
Qed.

Lemma pushSnapshot_elem (buffer : list Snapshot) (p : Vector3.t) (now : R)
    (s : Snapshot) :
  s ∈ pushSnapshot buffer p now → s ∈ buffer ∨ s = mkSnapshot p now.
Proof.
  unfold pushSnapshot.
  destruct (match last buffer with None => _ | Some _ => _ end);
    [|intros H; left; exact H].
  cbv zeta. intros H.
  assert (Hin : s ∈ buffer ++ [mkSnapshot p now]).
  { destruct (decide _); [|exact H].
    destruct (buffer ++ [mkSnapshot p now]) as [|b rest]; [exact H|].
    simpl in H. apply elem_of_cons. right. exact H. }
  apply elem_of_app in Hin. destruct Hin as [Hin|Hin]; [left; exact Hin|].
  right. apply list_elem_of_singleton in Hin. exact Hin.
Qed.

Lemma feedSnapshots_sorted_from (arrivals : list (Vector3.t * R))
    (buffer : list Snapshot) :
  sortedByTime buffer →
  (∀ s : Snapshot,
     s ∈ buffer → Forall (fun a => timestamp s <= snd a) arrivals) →
  StronglySorted Rle (snd <$> arrivals) →
  sortedByTime (feedSnapshots buffer arrivals).
Proof.
  revert buffer. induction arrivals as [|a rest IH]; intros buffer Hs Hb Hc.
  - exact Hs.
  - simpl. simpl in Hc. apply StronglySorted_inv in Hc as [Hc1 Hc2].
    apply IH; [| |exact Hc1].
    + apply pushSnapshot_sorted; [exact Hs|].
      intros newest Hn. apply last_Some_elem_of in Hn.
      pose proof (Hb newest Hn) as Hf.
      apply Forall_cons in Hf as [Hf _]. exact Hf.
    + intros s Hin. apply pushSnapshot_elem in Hin as [Hin| ->].
      * pose proof (Hb s Hin) as Hf. apply Forall_cons in Hf as [_ Hf].
        exact Hf.
      * simpl. rewrite Forall_fmap in Hc2. exact Hc2.
Qed.

(** X7: fed from empty with clock readings that never decrease, the
    buffer is always sorted by timestamp, which is what the search for
    the interpolation pair relies on. *)
Theorem feedSnapshots_sorted (arrivals : list (Vector3.t * R)) :
  StronglySorted Rle (snd <$> arrivals) →
  sortedByTime (feedSnapshots [] arrivals).
Proof.
  intros Hc. apply feedSnapshots_sorted_from; [| |exact Hc].
  - intros i j s s' _ Hi. rewrite lookup_nil in Hi. discriminate.
  - intros s Hin. apply elem_of_nil in Hin. destruct Hin.
Qed.

Lemma feedSnapshots_sorted_witness :
  sortedByTime (feedSnapshots [] marchArrivals).
Proof.
  apply (feedSnapshots_sorted marchArrivals).
  simpl. repeat first [lra | constructor].
Defined.

(** ** Interpolation stays within the buffer *)

Lemma clamp01_bounds (t : R) : 0 <= Rmin 1 (Rmax 0 t) <= 1.
Proof.
  split; [apply Rmin_glb; [lra|apply Rmax_l]|apply Rmin_l].
Qed.

Lemma lerpVectors_0 (a b : Vector3.t) : Vector3.lerpVectors a b 0 = a.
Proof. apply Vector3_eq; simpl; ring. Qed.

(** X8: the interpolation never extrapolates.  On a non-empty buffer the
    target is a blend, with a factor between 0 and 1, of the positions
    of two buffered snapshots (the pair found by the search, or one
    snapshot taken twice), for every render time and however the
    timestamps are ordered; with an empty buffer it is the server
    position. *)
Theorem interpolateTarget_within_buffer (buffer : list Snapshot)
    (serverPosition : Vector3.t) (renderTime : R) :
  (buffer ≠ [] →
   ∃ (snap0 snap1 : Snapshot) (alpha : R),
     snap0 ∈ buffer ∧ snap1 ∈ buffer ∧ 0 <= alpha <= 1 ∧
     interpolateTarget buffer serverPosition renderTime
     = Some (Vector3.lerpVectors (pos snap0) (pos snap1) alpha)) ∧
  interpolateTarget [] serverPosition renderTime = Some serverPosition.
Proof.
  split; [|reflexivity].
  intros Hne.
  assert (Hone : ∀ (k : nat) (s : Snapshot),
            buffer !! k = Some s →
            ∃ (snap0 snap1 : Snapshot) (alpha : R),
              snap0 ∈ buffer ∧ snap1 ∈ buffer ∧ 0 <= alpha <= 1 ∧
              Some (pos s)
              = Some (Vector3.lerpVectors (pos snap0) (pos snap1) alpha)).
  { intros k s Hk. exists s, s, 0.
    pose proof (list_elem_of_lookup_2 _ _ _ Hk) as Hin.
    split; [exact Hin|]. split; [exact Hin|]. split; [lra|].
    rewrite lerpVectors_0. reflexivity. }
  unfold interpolateTarget.
  destruct (decide (2 ≤ length buffer)%nat) as [H2|H2].
  - cbv zeta. destruct (decide _) as [Hi|Hi].
    + destruct (lookup_lt_is_Some_2 buffer (scanIndex buffer renderTime 0))
        as [s0 E0]; [lia|].
      destruct (lookup_lt_is_Some_2 buffer (scanIndex buffer renderTime 0 + 1))
        as [s1 E1]; [lia|].
      rewrite E0, E1. simpl.
      exists s0, s1,
        (Rmin 1 (Rmax 0 ((renderTime - timestamp s0)
                         / (timestamp s1 - timestamp s0)))).
      split; [apply (list_elem_of_lookup_2 _ _ _ E0)|].
      split; [apply (list_elem_of_lookup_2 _ _ _ E1)|].
      split; [apply clamp01_bounds|reflexivity].
    + destruct (lookup_lt_is_Some_2 buffer (length buffer - 1))
        as [s E]; [lia|].
      rewrite E. simpl. apply (Hone _ _ E).
  - destruct (decide _) as [H1|H1].
    + destruct (lookup_lt_is_Some_2 buffer 0) as [s E]; [lia|].
      rewrite E. simpl. apply (Hone _ _ E).
    + destruct buffer; [congruence|simpl in *; lia].
Qed.

Lemma interpolateTarget_within_buffer_witness :
  ∃ (snap0 snap1 : Snapshot) (alpha : R),
    snap0 ∈ exampleBuffer ∧ snap1 ∈ exampleBuffer ∧ 0 <= alpha <= 1 ∧
    interpolateTarget exampleBuffer (Vector3.mk 7 7 7) 1234
    = Some (Vector3.lerpVectors (pos snap0) (pos snap1) alpha).
Proof.
  apply (proj1 (interpolateTarget_within_buffer exampleBuffer
                  (Vector3.mk 7 7 7) 1234)).
  discriminate.
Defined.

(** X9: a remote player's rendered position moves towards the
    interpolation target without overshooting.  In a frame of a
    remote player (any non-negative frame time) the frame does not fail,
    the new group position is the blend of the old one and the target
    with a factor between 0 and 1/2, and the distance left to the target
    is the old distance times one minus that factor. *)
Theorem useFrame_remote_smoothing (refs : PlayerRefs)
    (currentInput : option InputState) (playerData : PlayerData)
    (now delta : R) :
  0 <= delta →
  let f := Rmin 1 (Rmin delta (1 / 30) * 15) in
  ∃ (refs' : PlayerRefs) (target : Vector3.t),
    useFrame refs true false currentInput playerData now delta = Some refs' ∧
    remoteTargetPosition refs' = target ∧
    groupPosition refs' = Vector3.lerp (groupPosition refs) target f ∧
    0 <= f <= 1 / 2 ∧
    Vector3.distanceTo (groupPosition refs') target
    = (1 - f) * Vector3.distanceTo (groupPosition refs) target.
Proof.
  intros Hd. cbv zeta.
  assert (Hf : 0 <= Rmin 1 (Rmin delta (1 / 30) * 15) <= 1 / 2).
  { pose proof (Rmin_r delta (1 / 30)).
    assert (0 <= Rmin delta (1 / 30)) by (apply Rmin_glb; lra).
    split; [apply Rmin_glb; lra|].
    eapply Rle_trans; [apply Rmin_r|]. lra. }
  unfold useFrame. simpl. unfold remoteFrame. cbv zeta.
  destruct (interpolateTarget_total
              (remotePositionBuffer
                 (set_remotePositionBuffer refs
                    (pushSnapshot (remotePositionBuffer refs)
                       (serverPositionOf playerData) now)))
              (serverPositionOf playerData) (now - 100)) as [target Ht].
  rewrite Ht. simpl.
  eexists. exists target. split; [reflexivity|]. simpl.
  split; [reflexivity|]. split; [reflexivity|]. split; [exact Hf|].
  rewrite distanceTo_lerp. rewrite Rabs_right by lra. reflexivity.
Qed.

Lemma useFrame_remote_smoothing_witness :
  let f := Rmin 1 (Rmin (1 / 60) (1 / 30) * 15) in
  ∃ (refs' : PlayerRefs) (target : Vector3.t),
    useFrame (idleRefs false) true false None
      (mkPlayerData (Vector3.mk 3 0 4) (Vector3.mk 0 0 0) 0) 5000 (1 / 60)
    = Some refs' ∧
    remoteTargetPosition refs' = target ∧
    groupPosition refs'
    = Vector3.lerp (groupPosition (idleRefs false)) target f ∧
    0 <= f <= 1 / 2 ∧
    Vector3.distanceTo (groupPosition refs') target
    = (1 - f) * Vector3.distanceTo (groupPosition (idleRefs false)) target.
Proof.
  apply (useFrame_remote_smoothing (idleRefs false) None
           (mkPlayerData (Vector3.mk 3 0 4) (Vector3.mk 0 0 0) 0) 5000
           (1 / 60)).
  lra.
Defined.

(** ** Sending inputs *)


(** X10: [sendInput] sends an input once.  Not connected, it does
    nothing.  Connected, an input that differs from the last sent one is
    recorded as last sent, stamped in the table under its sequence number
    and appended to the outbox; sending the same input again, at any
    later time, changes nothing (no second stamp, no second send). *)
Theorem sendInput_once (refs : App.Refs) (input : InputState) (now later : R) :
  App.sendInput refs false input now = refs ∧
  (App.lastSentInputState refs ≠ Some input →
   let refs' := App.sendInput refs true input now in
   App.lastSentInputState refs' = Some input ∧
   App.inputTimestampsRef refs' !! Input.sequence input = Some now ∧
   App.outbox refs' = App.outbox refs ++ [input]) ∧
  App.sendInput (App.sendInput refs true input now) true input later
  = App.sendInput refs true input now.
Proof.
  split; [reflexivity|]. split.
  - intros Hne. cbv zeta. unfold App.sendInput. simpl.
    assert (Hch : match App.lastSentInputState refs with
                  | None => true
                  | Some l => bool_decide (input ≠ l)
                  end = true).
    { destruct (App.lastSentInputState refs) as [l|]; [|reflexivity].
      apply bool_decide_eq_true_2. congruence. }
    rewrite Hch. simpl. rewrite lookup_insert_eq. repeat split.
  - destruct (match App.lastSentInputState refs with
              | None => true
              | Some l => bool_decide (input ≠ l)
              end) eqn:Hch.
    + unfold App.sendInput. simpl. rewrite Hch. simpl.
      rewrite bool_decide_eq_false_2 by (intros H; apply H; reflexivity).
      reflexivity.
    + unfold App.sendInput. simpl. rewrite Hch. simpl. rewrite Hch.
      reflexivity.
Qed.

Lemma sendInput_once_witness :
  let input := keys true false false false false false in
  let refs' := App.sendInput App.initial true input 1000 in
  App.lastSentInputState refs' = Some input ∧
  App.inputTimestampsRef refs' !! Input.sequence input = Some 1000 ∧
  App.outbox refs' = App.outbox App.initial ++ [input].
Proof.
  apply (proj1 (proj2 (sendInput_once App.initial
                         (keys true false false false false false)
                         1000 2000))).
  discriminate.
Defined.





(** ** Round-trip samples *)

(** X12: an update that acknowledges a pending sequence (non-zero, with
    a non-zero send time) adds exactly one sample, the clock reading
    minus the send time, and removes the entry, so the same
    acknowledgment arriving again adds nothing.  An update whose
    sequence is 0, is not pending, or was stamped at time 0 changes
    nothing. *)
Theorem onUpdate_round_trip (refs : App.Refs) (newPlayer : PlayerData)
    (now later : R) :
  (∀ sent : R,
     lastInputSeq newPlayer ≠ 0%Z →
     App.inputTimestampsRef refs !! lastInputSeq newPlayer = Some sent →
     sent ≠ 0 →
     let refs' := App.onUpdate refs newPlayer now in
     App.rttSamples refs' = App.rttSamples refs ++ [now - sent] ∧
     App.inputTimestampsRef refs' !! lastInputSeq newPlayer = None ∧
     App.onUpdate refs' newPlayer later = refs') ∧
  (lastInputSeq newPlayer = 0%Z
   ∨ App.inputTimestampsRef refs !! lastInputSeq newPlayer = None
   ∨ App.inputTimestampsRef refs !! lastInputSeq newPlayer = Some 0 →
   App.onUpdate refs newPlayer now = refs).
Proof.
  split.
  - intros sent Hseq Hsent Hnz. cbv zeta.
    assert (Hgone : App.inputTimestampsRef (App.onUpdate refs newPlayer now)
                    !! lastInputSeq newPlayer = None).
    { unfold App.onUpdate. cbv zeta.
      destruct (decide (lastInputSeq newPlayer = 0%Z)); [contradiction|].
      rewrite Hsent. destruct (decide (sent = 0)); [contradiction|]. simpl.
      destruct (decide _).
      - rewrite lookup_delete_ne by lia. apply lookup_delete_eq.
      - apply lookup_delete_eq. }
    split; [|split; [exact Hgone|]].
    + unfold App.onUpdate. cbv zeta.
      destruct (decide (lastInputSeq newPlayer = 0%Z)); [contradiction|].
      rewrite Hsent. destruct (decide (sent = 0)); [contradiction|].
      reflexivity.
    + unfold App.onUpdate at 1. cbv zeta.
      destruct (decide (lastInputSeq newPlayer = 0%Z)); [contradiction|].
      rewrite Hgone. reflexivity.
  - intros H. unfold App.onUpdate. cbv zeta.
    destruct (decide (lastInputSeq newPlayer = 0%Z)) as [|Hn]; [reflexivity|].
    destruct H as [H|[H|H]]; [contradiction| |]; rewrite H; [reflexivity|].
    destruct (decide (0 = 0)); [reflexivity|contradiction].
Qed.

(** Sequence 1 sent at 1000 and acknowledged at 1080: one sample of 80;
    an update for a sequence that was never sent: nothing. *)
Lemma onUpdate_round_trip_witness :
  let refs := App.intervalTick App.initial true 1000 in
  let ack := mkPlayerData (Vector3.mk 0 0 0) (Vector3.mk 0 0 0) 1 in
  let stray := mkPlayerData (Vector3.mk 0 0 0) (Vector3.mk 0 0 0) 9 in
  (App.rttSamples (App.onUpdate refs ack 1080) = [] ++ [1080 - 1000] ∧
   App.inputTimestampsRef (App.onUpdate refs ack 1080) !! 1%Z = None ∧
   App.onUpdate (App.onUpdate refs ack 1080) ack 1100
   = App.onUpdate refs ack 1080) ∧
  App.onUpdate refs stray 1080 = refs.
Proof.
  cbv zeta. split.
  - apply (proj1 (onUpdate_round_trip (App.intervalTick App.initial true 1000)
                    (mkPlayerData (Vector3.mk 0 0 0) (Vector3.mk 0 0 0) 1)
                    1080 1100) 1000).
    + simpl. lia.
    + reflexivity.
    + lra.
  - apply (proj2 (onUpdate_round_trip (App.intervalTick App.initial true 1000)
                    (mkPlayerData (Vector3.mk 0 0 0) (Vector3.mk 0 0 0) 9)
                    1080 1100)).
    right. left. reflexivity.
Defined.

(** ** Key and mouse handlers *)

#[global] Instance Action_eq_dec : EqDecision App.Action.
Proof. solve_decision. Defined.

Lemma getAction_setAction (input : InputState) (action other : App.Action)
    (value : bool) :
  App.getAction (App.setAction input action value) other
  = if decide (other = action) then value else App.getAction input other.
Proof. destruct action, other; reflexivity. Qed.

(** X13: pressing a mapped key sets its flag and nothing else: every
    other flag, the attack and cast flags and the sequence number are
    untouched; auto-repeat events and unmapped keys do nothing.
    Releasing the key clears the flag again, and when the flag was clear
    before the press, press then release restores the refs exactly. *)
Theorem handleKey_press_release (refs : App.Refs) (code : string)
    (action : App.Action) :
  App.keyMap code = Some action →
  let pressed := App.handleKeyDown refs code false in
  let released := App.handleKeyUp pressed code in
  App.getAction (App.currentInputRef pressed) action = true ∧
  (∀ other : App.Action,
     other ≠ action →
     App.getAction (App.currentInputRef pressed) other
     = App.getAction (App.currentInputRef refs) other) ∧
  (Input.attack (App.currentInputRef pressed),
   Input.castSpell (App.currentInputRef pressed),
   Input.sequence (App.currentInputRef pressed))
  = (Input.attack (App.currentInputRef refs),
     Input.castSpell (App.currentInputRef refs),
     Input.sequence (App.currentInputRef refs)) ∧
  App.handleKeyDown refs code true = refs ∧
  App.getAction (App.currentInputRef released) action = false ∧
  (App.getAction (App.currentInputRef refs) action = false →
   released = refs).
Proof.
  intros Hk. cbv zeta. unfold App.handleKeyDown, App.handleKeyUp.
  rewrite Hk.
  destruct (App.getAction (App.currentInputRef refs) action) eqn:Hg; simpl.
  - rewrite Hg. simpl. rewrite getAction_setAction.
    rewrite decide_True by reflexivity.
    repeat split; try assumption. discriminate.
  - rewrite !getAction_setAction.
    rewrite decide_True by reflexivity. simpl.
    rewrite getAction_setAction, decide_True by reflexivity.
    split; [reflexivity|]. split.
    { intros other Hne. rewrite getAction_setAction.
      rewrite decide_False by exact Hne. reflexivity. }
    split; [destruct action; reflexivity|].
    split; [reflexivity|]. split; [reflexivity|]. intros _.
    destruct refs as [cur ls tab smp ob]. destruct cur.
    destruct action; simpl in *; subst; reflexivity.
Qed.

Lemma handleKey_press_release_witness :
  let pressed := App.handleKeyDown App.initial "Space" false in
  let released := App.handleKeyUp pressed "Space" in
  App.getAction (App.currentInputRef pressed) App.jump = true ∧
  (∀ other : App.Action,
     other ≠ App.jump →
     App.getAction (App.currentInputRef pressed) other
     = App.getAction (App.currentInputRef App.initial) other) ∧
  (Input.attack (App.currentInputRef pressed),
   Input.castSpell (App.currentInputRef pressed),
   Input.sequence (App.currentInputRef pressed))
  = (Input.attack (App.currentInputRef App.initial),
     Input.castSpell (App.currentInputRef App.initial),
     Input.sequence (App.currentInputRef App.initial)) ∧
  App.handleKeyDown App.initial "Space" true = App.initial ∧
  App.getAction (App.currentInputRef released) App.jump = false ∧
  (App.getAction (App.currentInputRef App.initial) App.jump = false →
   released = App.initial).
Proof.
  apply (handleKey_press_release App.initial "Space" App.jump).
  reflexivity.
Defined.

(** ** The player table *)

Lemma tableStep_mirror (me : string) (t : App.Tables) (e : App.TableEvent) :
  App.localPlayer t = App.players t !! me →
  App.localPlayer (App.tableStep (Some me) t e)
  = App.players (App.tableStep (Some me) t e) !! me.
Proof.
  intros H. destruct e as [id player|id player|id|]; simpl.
  - destruct (bool_decide (id = me)) eqn:E.
    + apply bool_decide_eq_true_1 in E. subst id.
      rewrite lookup_insert_eq. reflexivity.
    + apply bool_decide_eq_false_1 in E.
      rewrite lookup_insert_ne by exact E. exact H.
  - destruct (bool_decide (id = me)) eqn:E.
    + apply bool_decide_eq_true_1 in E. subst id.
      rewrite lookup_insert_eq. reflexivity.
    + apply bool_decide_eq_false_1 in E.
      rewrite lookup_insert_ne by exact E. exact H.
  - destruct (bool_decide (id = me)) eqn:E.
    + apply bool_decide_eq_true_1 in E. subst id.
      rewrite lookup_delete_eq. reflexivity.
    + apply bool_decide_eq_false_1 in E.
      rewrite lookup_delete_ne by exact E. exact H.
  - rewrite lookup_empty. reflexivity.
Qed.

(** X14: [localPlayer] mirrors the player table.  Starting from the
    empty table, after any sequence of insert, update, delete and
    disconnect events, [localPlayer] is the entry of the [players] map
    under the client's own identity (none if there is no such entry);
    while the identity is not known yet, [localPlayer] stays unset. *)
Theorem localPlayer_mirrors_table (me : string)
    (events : list App.TableEvent) :
  let start := App.mkTables ∅ None in
  App.localPlayer (foldl (App.tableStep (Some me)) start events)
  = App.players (foldl (App.tableStep (Some me)) start events) !! me ∧
  App.localPlayer (foldl (App.tableStep None) start events) = None.
Proof.
  cbv zeta. split.
  - induction events as [|e events IH] using rev_ind.
    + simpl. rewrite lookup_empty. reflexivity.
    + rewrite foldl_snoc. apply tableStep_mirror. exact IH.
  - induction events as [|e events IH] using rev_ind; [reflexivity|].
    rewrite foldl_snoc. destruct e; simpl; try exact IH. reflexivity.
Qed.

(** ** Animations *)

(** Every name the prediction can ask for has an animation file
    registered. *)
Lemma determineLocalAnimation_in_animKeys (input : option InputState)
    (isGrounded : bool) :
  determineLocalAnimation input isGrounded ∈ animKeys.
Proof.
  apply (bool_decide_eq_true_1 _).
  destruct input as [[f b l r sp j a c sq]|]; [|reflexivity].
  destruct a, c, isGrounded, j, f, b, l, r, sp; reflexivity.
Qed.

(** X15: on the ground the animation the client plays is the one it
    sends to the server with the input; in the air it plays the jump
    animation unless an attack or a cast is on, whatever keys are down.
    In both cases the name is one an animation file is registered for,
    and never the damage or the death animation. *)
Theorem determineLocalAnimation_agrees (input : InputState) :
  determineLocalAnimation (Some input) true = App.determineAnimation input ∧
  determineLocalAnimation (Some input) false
  = (if Input.attack input then "attack1"
     else if Input.castSpell input then "cast" else "jump") ∧
  (∀ isGrounded : bool,
     determineLocalAnimation (Some input) isGrounded ∈ animKeys ∧
     determineLocalAnimation (Some input) isGrounded ≠ "damage" ∧
     determineLocalAnimation (Some input) isGrounded ≠ "death").
Proof.
  split; [|split].
  - destruct input as [f b l r sp j a c sq].
    destruct a, c, j, f, b, l, r, sp; reflexivity.
  - destruct input as [f b l r sp j a c sq].
    destruct a, c; reflexivity.
  - intros isGrounded.
    split; [apply determineLocalAnimation_in_animKeys|].
    destruct input as [f b l r sp j a c sq].
    destruct a, c, isGrounded, j, f, b, l, r, sp; split; discriminate.
Qed.

(** X16: when every registered animation is loaded, the animation step
    of a local frame always ends on the predicted animation: the current
    animation afterwards is [determineLocalAnimation] of the input and
    of whether the height is at most 0.01, and the only action started,
    if any, is that one. *)
Theorem localAnimationStep_follows_prediction (animations : gset string)
    (currentAnimation : string) (localPosition : Vector3.t)
    (currentInput : InputState) :
  (∀ name : string, name ∈ animKeys → name ∈ animations) →
  let predicted :=
    determineLocalAnimation (Some currentInput)
      (bool_decide (Vector3.y localPosition <= 0.01)) in
  let out :=
    localAnimationStep true animations currentAnimation localPosition
      currentInput in
  fst out = predicted ∧
  (∀ name : string, Play name ∈ snd out → name = predicted) ∧
  (predicted = currentAnimation → snd out = []).
Proof.
  intros Hall. cbv zeta. unfold localAnimationStep. cbv zeta.
  set (predicted := determineLocalAnimation _ _).
  assert (Hin : predicted ∈ animations).
  { apply Hall. apply determineLocalAnimation_in_animKeys. }
  destruct (bool_decide (predicted ≠ currentAnimation)) eqn:Hne.
  - apply bool_decide_eq_true_1 in Hne.
    unfold playAnimation. simpl.
    rewrite (bool_decide_eq_true_2 _ Hin). simpl.
    split; [reflexivity|]. split; [|congruence].
    intros name Hp. apply elem_of_app in Hp as [Hp|Hp].
    + destruct (_ && _); [|apply elem_of_nil in Hp; destruct Hp].
      apply list_elem_of_singleton in Hp. discriminate.
    + apply list_elem_of_singleton in Hp. congruence.
  - apply bool_decide_eq_false_1 in Hne.
    assert (E : predicted = currentAnimation).
    { destruct (decide (predicted = currentAnimation)); [assumption|].
      contradiction. }
    simpl. split; [congruence|]. split; [|reflexivity].
    intros name Hp. apply elem_of_nil in Hp. destruct Hp.
Qed.

Lemma localAnimationStep_follows_prediction_witness :
  let animations : gset string := list_to_set animKeys in
  let input := keys true false false true true false in
  let out :=
    localAnimationStep true animations "idle" (Vector3.mk 0 0 0) input in
  fst out
  = determineLocalAnimation (Some input)
      (bool_decide (Vector3.y (Vector3.mk 0 0 0) <= 0.01)) ∧
  (∀ name : string,
     Play name ∈ snd out →
     name = determineLocalAnimation (Some input)
              (bool_decide (Vector3.y (Vector3.mk 0 0 0) <= 0.01))) ∧
  (determineLocalAnimation (Some input)
     (bool_decide (Vector3.y (Vector3.mk 0 0 0) <= 0.01)) = "idle" →
   snd out = []).
Proof.
  apply (localAnimationStep_follows_prediction (list_to_set animKeys) "idle"
           (Vector3.mk 0 0 0) (keys true false false true true false)).
  intros name Hin. apply elem_of_list_to_set. exact Hin.
Defined.

(** X17: for the local player the server's echo of a predicted movement
    animation never restarts an animation: whenever the server reports a
    name the prediction produces with no attack and no cast (idle, jump,
    a walk or a run), the effect leaves the current animation alone and
    issues no command.  For a remote player a loaded, different,
    non-empty server animation becomes the current one. *)
Theorem serverAnimationEffect_local_echo (mixer : bool)
    (animations : gset string) (currentAnimation : string)
    (input : InputState) (isGrounded : bool) (serverAnim : string) :
  (Input.attack input = false → Input.castSpell input = false →
   serverAnimationEffect mixer animations currentAnimation true
     (determineLocalAnimation (Some input) isGrounded)
   = (currentAnimation, [])) ∧
  (serverAnim ∈ animations → serverAnim ≠ "" →
   serverAnim ≠ currentAnimation →
   fst (serverAnimationEffect true animations currentAnimation false
          serverAnim)
   = serverAnim).
Proof.
  split.
  - intros Ha Hc. unfold serverAnimationEffect.
    destruct (negb mixer || bool_decide (size animations = 0%nat));
      [reflexivity|].
    cbv zeta.
    assert (Hm : String.prefix "walk"
                   (determineLocalAnimation (Some input) isGrounded)
                 || String.prefix "run"
                      (determineLocalAnimation (Some input) isGrounded)
                 || bool_decide
                      (determineLocalAnimation (Some input) isGrounded = "idle")
                 || bool_decide
                      (determineLocalAnimation (Some input) isGrounded = "jump")
                 = true).
    { destruct input as [f b l r sp j a c sq]. simpl in Ha, Hc. subst a c.
      destruct isGrounded, j, f, b, l, r, sp; reflexivity. }
    rewrite Hm. reflexivity.
  - intros Hin Hne Hcur. unfold serverAnimationEffect. simpl.
    assert (Hs : bool_decide (size animations = 0%nat) = false).
    { apply bool_decide_eq_false_2. intros E.
      apply size_empty_inv in E. apply leibniz_equiv in E. subst animations.
      apply elem_of_empty in Hin. exact Hin. }
    rewrite Hs. simpl.
    rewrite (bool_decide_eq_true_2 _ Hne), (bool_decide_eq_true_2 _ Hcur),
      (bool_decide_eq_true_2 _ Hin). simpl.
    unfold playAnimation. simpl.
    rewrite (bool_decide_eq_true_2 _ Hin). reflexivity.
Qed.

Lemma serverAnimationEffect_local_echo_witness :
  serverAnimationEffect true (list_to_set animKeys) "jump" true
    (determineLocalAnimation
       (Some (keys true false false false false false)) true)
  = ("jump", []) ∧
  fst (serverAnimationEffect true (list_to_set animKeys) "idle" false "damage")
  = "damage".
Proof.
  split.
  - apply (proj1 (serverAnimationEffect_local_echo true
                    (list_to_set animKeys) "jump"
                    (keys true false false false false false) true ""));
      reflexivity.
  - apply (proj2 (serverAnimationEffect_local_echo true
                    (list_to_set animKeys) "idle"
                    (keys true false false false false false) true "damage"));
      [|discriminate|discriminate].
    apply elem_of_list_to_set. apply (bool_decide_eq_true_1 _). reflexivity.
Defined.

(** ** Camera control *)

(** The remainder has the sign of the dividend, is smaller than the
    divisor in absolute value, and differs from the dividend by a whole
    multiple of the divisor. *)
Lemma jsRem_spec (x m : R) :
  0 < m →
  (0 <= x → 0 <= jsRem x m < m) ∧
  (x < 0 → - m < jsRem x m <= 0) ∧
  jsRem x m = x - m * IZR (truncZ (x / m)).
Proof.
  intros Hm. unfold jsRem.
  assert (Hx : x = m * (x / m)) by (field; lra).
  assert (Hi : 0 < / m) by (apply Rinv_0_lt_compat; exact Hm).
  split; [|split; [|reflexivity]].
  - intros H0.
    assert (Ht : 0 <= x / m) by (unfold Rdiv; apply Rmult_le_pos; lra).
    unfold truncZ. destruct (decide _) as [_|Hn]; [|contradiction].
    destruct (base_Int_part (x / m)) as [H1 H2].
    set (k := IZR (Int_part (x / m))) in *. nra.
  - intros H0.
    assert (Ht : x / m < 0).
    { unfold Rdiv. rewrite <- (Rmult_0_l (/ m)).
      apply Rmult_lt_compat_r; assumption. }
    unfold truncZ. destruct (decide _) as [Hp|_]; [lra|].
    destruct (base_Int_part (- (x / m))) as [H1 H2].
    rewrite opp_IZR.
    set (k := IZR (Int_part (- (x / m)))) in *. nra.
Qed.

Lemma sin_cos_period_Z (x : R) (k : Z) :
  sin (x - 2 * PI * IZR k) = sin x ∧ cos (x - 2 * PI * IZR k) = cos x.
Proof.
  destruct (Z_le_gt_dec 0 k) as [Hk|Hk].
  - set (n := Z.to_nat k).
    assert (E : IZR k = INR n).
    { unfold n. rewrite INR_IZR_INZ, Z2Nat.id by exact Hk. reflexivity. }
    rewrite E.
    replace x with (x - 2 * PI * INR n + 2 * INR n * PI) at 2 4 by ring.
    rewrite sin_period, cos_period. split; reflexivity.
  - set (n := Z.to_nat (- k)).
    assert (E : IZR k = - INR n).
    { unfold n. rewrite INR_IZR_INZ, Z2Nat.id by lia.
      rewrite opp_IZR. ring. }
    rewrite E.
    replace (x - 2 * PI * - INR n) with (x + 2 * INR n * PI) by ring.
    rewrite sin_period, cos_period. split; reflexivity.
Qed.

(** X18: a mouse move in follow mode (pointer locked, local player)
    keeps the pitch within -80 and +80 degrees and turns the yaw by
    [movementX * 0.005] up to whole turns: the new yaw differs from the
    turned yaw by a multiple of [2 * PI], so the forward and right vectors
    of the prediction are those of the turned yaw.  The new yaw lies in
    [[-PI, PI)] when the turned yaw is at least [-PI], and in
    [(-3 * PI, -PI]] otherwise (the remainder keeps the sign of its
    dividend).  The roll and the orbital camera are untouched, and
    without pointer lock the event does nothing. *)
Theorem handleMouseMove_follow (rot : Euler.t) (orbital : OrbitalCamera)
    (movementX movementY : R) :
  let turned := Euler.y rot - movementX * 0.005 in
  let out := handleMouseMove true true FOLLOW rot orbital movementX movementY in
  let rot' := fst out in
  degToRad (-80) <= Euler.x rot' <= degToRad 80 ∧
  (∃ k : Z, Euler.y rot' = turned - 2 * PI * IZR k) ∧
  forwardVector (Euler.y rot') = forwardVector turned ∧
  rightVector (Euler.y rot') = rightVector turned ∧
  (- PI <= turned → - PI <= Euler.y rot' < PI) ∧
  (turned < - PI → - (3 * PI) < Euler.y rot' <= - PI) ∧
  Euler.z rot' = Euler.z rot ∧ snd out = orbital ∧
  handleMouseMove false true FOLLOW rot orbital movementX movementY
  = (rot, orbital).
Proof.
  cbv zeta. unfold handleMouseMove. simpl.
  unfold CAMERA_CONFIG.SENSITIVITY_YAW, CAMERA_CONFIG.SENSITIVITY_PITCH,
    CAMERA_CONFIG.Y_MIN, CAMERA_CONFIG.Y_MAX.
  pose proof PI_RGT_0 as Hpi.
  set (turned := Euler.y rot - movementX * 0.005).
  destruct (jsRem_spec (turned + PI) (2 * PI) ltac:(lra)) as (Hpos & Hneg & Hk).
  assert (Hex : ∃ k : Z,
            jsRem (turned + PI) (2 * PI) - PI = turned - 2 * PI * IZR k).
  { exists (truncZ ((turned + PI) / (2 * PI))). rewrite Hk. ring. }
  split.
  { unfold clamp, degToRad. split.
    - replace (-80.0) with (-80) by lra. apply Rmax_l.
    - apply Rmax_lub; [nra|]. replace (80.0) with 80 by lra. apply Rmin_l. }
  split; [exact Hex|].
  destruct Hex as [k Ek]. rewrite Ek.
  destruct (sin_cos_period_Z turned k) as [Es Ec].
  split; [rewrite !forwardVector_eq, Es, Ec; reflexivity|].
  split; [rewrite !rightVector_eq, Es, Ec; reflexivity|].
  rewrite <- Ek.
  split; [intros H; specialize (Hpos ltac:(lra)); lra|].
  split; [intros H; specialize (Hneg ltac:(lra)); lra|].
  repeat split.
Qed.

Lemma handleMouseMove_follow_witness :
  (- PI
   <= Euler.y (fst (handleMouseMove true true FOLLOW (Euler.mk 0 0 0)
                      (mkOrbitalCamera 8 0 (PI / 6) 0) 0 0))
   < PI) ∧
  (- (3 * PI)
   < Euler.y (fst (handleMouseMove true true FOLLOW (Euler.mk 0 (-5) 0)
                     (mkOrbitalCamera 8 0 (PI / 6) 0) 0 0))
   <= - PI).
Proof.
  pose proof PI_RGT_0 as Hpi. pose proof PI_4 as H4.
  split.
  - apply (handleMouseMove_follow (Euler.mk 0 0 0)
             (mkOrbitalCamera 8 0 (PI / 6) 0) 0 0).
    simpl. lra.
  - apply (handleMouseMove_follow (Euler.mk 0 (-5) 0)
             (mkOrbitalCamera 8 0 (PI / 6) 0) 0 0).
    simpl. lra.
Defined.

(** X19: in orbital mode the camera stays on the sphere of radius
    [distance] around the player, and never below the player's height.
    After any mouse move the elevation is between [PI / 12] and
    [PI / 2.1] and the distance is unchanged; the camera position
    computed from it is exactly [distance] away from the group position
    (for a non-negative distance) and at least as high. *)
Theorem orbital_camera_on_sphere (rot : Euler.t) (orbital : OrbitalCamera)
    (movementX movementY : R) (groupPos : Vector3.t) :
  0 <= distance orbital →
  let out := handleMouseMove true true ORBITAL rot orbital movementX movementY in
  let orbital' := snd out in
  fst out = rot ∧
  PI / 12 <= elevation orbital' <= PI / 2.1 ∧
  distance orbital' = distance orbital ∧
  Vector3.distanceTo (orbitalCameraPosition groupPos orbital') groupPos
  = distance orbital ∧
  Vector3.y groupPos <= Vector3.y (orbitalCameraPosition groupPos orbital').
Proof.
  intros Hd. cbv zeta. unfold handleMouseMove. simpl.
  pose proof PI_RGT_0 as Hpi.
  set (e := Rmax (PI / 12) (Rmin (PI / 2.1) _)).
  assert (He : PI / 12 <= e <= PI / 2.1).
  { unfold e. split; [apply Rmax_l|].
    apply Rmax_lub; [|apply Rmin_l]. lra. }
  split; [reflexivity|]. split; [exact He|]. split; [reflexivity|].
  split.
  - unfold Vector3.distanceTo, Vector3.distanceToSquared,
      orbitalCameraPosition. simpl.
    set (a := angle orbital - movementX * CAMERA_CONFIG.SENSITIVITY_YAW).
    pose proof (sin_cos_unit a) as Ha. pose proof (sin_cos_unit e) as Hu.
    replace (_ + _)
      with (distance orbital * distance orbital
            * (sin e * sin e
               + cos e * cos e * (sin a * sin a + cos a * cos a)))
      by ring.
    rewrite Ha, Rmult_1_r, Hu, Rmult_1_r.
    apply sqrt_square. exact Hd.
  - unfold orbitalCameraPosition. simpl.
    assert (0 <= sin e) by (apply sin_ge_0; lra).
    nra.
Qed.

Lemma orbital_camera_on_sphere_witness :
  let orbital := mkOrbitalCamera 8 0 (PI / 6) 0 in
  let out :=
    handleMouseMove true true ORBITAL (Euler.mk 0 0 0) orbital 40 (-25) in
  let orbital' := snd out in
  fst out = Euler.mk 0 0 0 ∧
  PI / 12 <= elevation orbital' <= PI / 2.1 ∧
  distance orbital' = distance orbital ∧
  Vector3.distanceTo
    (orbitalCameraPosition (Vector3.mk 1 0 2) orbital') (Vector3.mk 1 0 2)
  = distance orbital ∧
  Vector3.y (Vector3.mk 1 0 2)
  <= Vector3.y (orbitalCameraPosition (Vector3.mk 1 0 2) orbital').
Proof.
  apply (orbital_camera_on_sphere (Euler.mk 0 0 0)
           (mkOrbitalCamera 8 0 (PI / 6) 0) 40 (-25) (Vector3.mk 1 0 2)).
  simpl. lra.
Defined.

Lemma sign_bounds (x : R) : -1 <= sign x <= 1.
Proof. unfold sign. repeat destruct (decide _); lra. Qed.

(** X20: the mouse wheel keeps the zoom within its limits.  In orbital
    mode the camera distance ends between 3 and 20 and, from a distance
    already in that range, moves by at most 0.5, in the direction of the
    wheel; angle and elevation are untouched.  In follow mode only
    [targetZoom] is written: it ends between 2 and 12 and is computed
    from [zoomLevel] alone, so it does not depend on its previous
    value.  For a remote player the wheel does nothing. *)
Theorem handleMouseWheel_limits (cameraMode : CameraMode)
    (zoomLevel targetZoom otherTarget : R) (orbital : OrbitalCamera)
    (deltaY : R) :
  let follow := handleMouseWheel true FOLLOW zoomLevel targetZoom orbital deltaY in
  let orbit := handleMouseWheel true ORBITAL zoomLevel targetZoom orbital deltaY in
  (2 <= fst follow <= 12 ∧ snd follow = orbital ∧
   fst (handleMouseWheel true FOLLOW zoomLevel otherTarget orbital deltaY)
   = fst follow) ∧
  (3 <= distance (snd orbit) <= 20 ∧
   (3 <= distance orbital <= 20 →
    Rabs (distance (snd orbit) - distance orbital) <= 0.5 ∧
    0 <= (distance (snd orbit) - distance orbital) * deltaY) ∧
   angle (snd orbit) = angle orbital ∧
   elevation (snd orbit) = elevation orbital ∧
   fst orbit = targetZoom) ∧
  handleMouseWheel false cameraMode zoomLevel targetZoom orbital deltaY
  = (targetZoom, orbital).
Proof.
  cbv zeta. unfold handleMouseWheel. simpl.
  pose proof (sign_bounds deltaY) as Hs.
  split; [|split; [|reflexivity]].
  - split; [|split; reflexivity].
    split; [replace (2.0) with 2 by lra; apply Rmax_l|].
    apply Rmax_lub; [lra|]. replace (12.0) with 12 by lra. apply Rmin_l.
  - split.
    { split; [apply Rmax_l|]. apply Rmax_lub; [lra|apply Rmin_l]. }
    split; [|repeat split].
    intros Hd.
    unfold sign in *. unfold Rmax, Rmin.
    repeat destruct (decide _); repeat destruct (Rle_dec _ _);
      split; try (apply Rabs_le; split); try nra; try lra.
Qed.

Lemma handleMouseWheel_limits_witness :
  let orbital := mkOrbitalCamera 19.8 0 (PI / 6) 0 in
  let orbit := handleMouseWheel true ORBITAL 5 5 orbital 120 in
  Rabs (distance (snd orbit) - distance orbital) <= 0.5 ∧
  0 <= (distance (snd orbit) - distance orbital) * 120.
Proof.
  apply (proj1 (proj2 (proj1 (proj2
           (handleMouseWheel_limits FOLLOW 5 5 7
              (mkOrbitalCamera 19.8 0 (PI / 6) 0) 120))))).
  simpl. lra.
Defined.

(** ** Projectile meshes *)

(** What a frame leaves under each id. *)
Lemma projectile_useFrame_lookup (projectileMeshes : gmap string ProjectileManager.Mesh)
    (projectiles : gmap string Vector3.t) (delta : R) (id : string) :
  ProjectileManager.useFrame projectileMeshes projectiles delta !! id
  = match projectiles !! id with
    | Some data =>
      Some (ProjectileManager.updateMesh
              (default (ProjectileManager.createMesh data)
                 (projectileMeshes !! id))
              data delta)
    | None => None
    end.
Proof.
  unfold ProjectileManager.useFrame. cbv zeta.
  set (kept := filter _ projectileMeshes).
  assert (Hfold : ∀ i : string,
            map_fold
              (fun id data meshes =>
                 <[id := ProjectileManager.updateMesh
                           (default (ProjectileManager.createMesh data)
                              (meshes !! id)) data delta]> meshes)
              kept projectiles !! i
            = match projectiles !! i with
              | Some data =>
                Some (ProjectileManager.updateMesh
                        (default (ProjectileManager.createMesh data)
                           (kept !! i)) data delta)
              | None => kept !! i
              end).
  { apply (map_fold_weak_ind
             (fun r m =>
                ∀ i : string,
                  r !! i
                  = match m !! i with
                    | Some data =>
                      Some (ProjectileManager.updateMesh
                              (default (ProjectileManager.createMesh data)
                                 (kept !! i)) data delta)
                    | None => kept !! i
                    end)).
    - intros i. rewrite lookup_empty. reflexivity.
    - intros j x m r Hj IH i.
      destruct (decide (i = j)) as [->|Hne].
      + rewrite !lookup_insert_eq. rewrite (IH j), Hj. reflexivity.
      + rewrite !lookup_insert_ne by congruence. apply IH. }
  rewrite Hfold.
  destruct (projectiles !! id) as [data|] eqn:Ep.
  - do 3 f_equal. unfold kept.
    destruct (projectileMeshes !! id) as [mesh|] eqn:Em.
    + apply map_lookup_filter_Some. split; [exact Em|]. simpl. eauto.
    + apply map_lookup_filter_None. left. exact Em.
  - unfold kept. apply map_lookup_filter_None. right.
    intros mesh _ [x Hx]. simpl in Hx. congruence.
Qed.

(** X21: after every frame there is exactly one mesh per projectile: the
    ids of the mesh map are the ids of the projectile map.  The mesh of a
    projectile that had none sits exactly at the projectile position and
    casts shadows; a mesh that existed moves towards the projectile
    position and is left with 0.8 of its distance to it. *)
Theorem projectile_meshes_follow (projectileMeshes : gmap string ProjectileManager.Mesh)
    (projectiles : gmap string Vector3.t) (delta : R) :
  let meshes' := ProjectileManager.useFrame projectileMeshes projectiles delta in
  dom meshes' = dom projectiles ∧
  (∀ (id : string) (data : Vector3.t),
     projectiles !! id = Some data → projectileMeshes !! id = None →
     ∃ mesh : ProjectileManager.Mesh,
       meshes' !! id = Some mesh ∧
       ProjectileManager.meshPosition mesh = data ∧
       ProjectileManager.castShadow mesh = true) ∧
  (∀ (id : string) (data : Vector3.t) (old : ProjectileManager.Mesh),
     projectiles !! id = Some data → projectileMeshes !! id = Some old →
     ∃ mesh : ProjectileManager.Mesh,
       meshes' !! id = Some mesh ∧
       Vector3.distanceTo (ProjectileManager.meshPosition mesh) data
       = 0.8 * Vector3.distanceTo (ProjectileManager.meshPosition old) data).
Proof.
  cbv zeta. split; [|split].
  - apply set_eq. intros id. rewrite !elem_of_dom.
    rewrite projectile_useFrame_lookup.
    destruct (projectiles !! id); split; intros [x H];
      try discriminate; eauto.
  - intros id data Hp Hm. rewrite projectile_useFrame_lookup, Hp, Hm.
    eexists. split; [reflexivity|]. simpl. split; [|reflexivity].
    rewrite lerp_same. destruct data; reflexivity.
  - intros id data old Hp Hm. rewrite projectile_useFrame_lookup, Hp, Hm.
    eexists. split; [reflexivity|]. simpl.
    replace (Vector3.mk (Vector3.x data) (Vector3.y data) (Vector3.z data))
      with data by (destruct data; reflexivity).
    rewrite distanceTo_lerp. rewrite Rabs_right by lra. lra.
Qed.

Lemma projectile_meshes_follow_witness :
  let old := ProjectileManager.mkMesh (Vector3.mk 0 1 0) 0 0 true in
  let projectileMeshes : gmap string ProjectileManager.Mesh :=
    {[ "7" := old; "8" := old ]} in
  let projectiles : gmap string Vector3.t :=
    {[ "7" := Vector3.mk 5 1 0; "9" := Vector3.mk 2 1 2 ]} in
  let meshes' := ProjectileManager.useFrame projectileMeshes projectiles 0.016 in
  (∃ mesh : ProjectileManager.Mesh,
     meshes' !! "9" = Some mesh ∧
     ProjectileManager.meshPosition mesh = Vector3.mk 2 1 2 ∧
     ProjectileManager.castShadow mesh = true) ∧
  (∃ mesh : ProjectileManager.Mesh,
     meshes' !! "7" = Some mesh ∧
     Vector3.distanceTo (ProjectileManager.meshPosition mesh) (Vector3.mk 5 1 0)
     = 0.8 * Vector3.distanceTo (ProjectileManager.meshPosition old)
               (Vector3.mk 5 1 0)).
Proof.
  cbv zeta.
  pose proof (projectile_meshes_follow
                {[ "7" := ProjectileManager.mkMesh (Vector3.mk 0 1 0) 0 0 true;
                   "8" := ProjectileManager.mkMesh (Vector3.mk 0 1 0) 0 0 true ]}
                {[ "7" := Vector3.mk 5 1 0; "9" := Vector3.mk 2 1 2 ]} 0.016)
    as (_ & Hnew & Hold).
  split.
  - apply (Hnew "9" (Vector3.mk 2 1 2)); reflexivity.
  - apply (Hold "7" (Vector3.mk 5 1 0)); reflexivity.
Defined.

(** ** Animation loading and retargeting *)

Lemma splitChar_nonempty (sep : ascii) (s : string) : splitChar sep s ≠ [].
Proof.
  destruct s as [|c rest]; simpl; [discriminate|].
  destruct (decide _); [discriminate|].
  destruct (splitChar sep rest); discriminate.
Qed.

(** Splitting at the dots and joining with dots gives the string back. *)
Lemma joinDot_splitDot (s : string) : joinDot (splitDot s) = s.
Proof.
  unfold splitDot. induction s as [|c rest IH]; [reflexivity|].
  simpl. pose proof (splitChar_nonempty "."%char rest) as Hne.
  destruct (decide (c = "."%char)) as [->|Hc].
  - destruct (splitChar "."%char rest) as [|p ps]; [contradiction|].
    change (joinDot (EmptyString :: p :: ps))
      with (String "."%char (joinDot (p :: ps))).
    rewrite IH. reflexivity.
  - destruct (splitChar "."%char rest) as [|p ps]; [contradiction|].
    destruct ps as [|q qs]; simpl in *; rewrite <- IH; reflexivity.
Qed.

Lemma retargetTrack_same (track : Track) : retargetTrack track = track.
Proof.
  unfold retargetTrack. cbv zeta.
  destruct (decide _) as [_|Hlen]; [reflexivity|].
  assert (E : default EmptyString (head (splitDot (trackName track)))
              +:+ "." +:+ joinDot (tail (splitDot (trackName track)))
              = trackName track).
  { rewrite <- (joinDot_splitDot (trackName track)) at 3.
    destruct (splitDot (trackName track)) as [|p [|q qs]];
      simpl in *; try lia. reflexivity. }
  rewrite E. destruct (decide _) as [Hne|_]; [contradiction|reflexivity].
Qed.

(** X22: retargeting never renames or rebuilds a track.  The bone name
    is mapped to itself, and a track name split at its dots and put
    together again is the same name, so for every clip, model path and
    source path the returned clip has the name, duration, blend mode and
    exactly the tracks of the clip it was given. *)
Theorem retargetClip_same_clip (modelLoaded : bool)
    (mainModelPath sourceModelPath : string) (clip : Clip) :
  retargetClip modelLoaded mainModelPath clip sourceModelPath = clip.
Proof.
  unfold retargetClip. destruct (negb modelLoaded); [reflexivity|].
  cbv zeta. destruct (decide _); [reflexivity|].
  destruct clip as [cname cdur ts cblend]. simpl. f_equal.
  induction ts as [|t ts IH]; [reflexivity|].
  simpl. rewrite retargetTrack_same. f_equal. exact IH.
Qed.

Lemma loadStep_count (outcomes : list LoadOutcome) :
  let st := foldl loadStep (mkLoadState 0 0) outcomes in
  loadedCount st
  = (length outcomes
     + length (filter (fun o => o = FetchFailed) outcomes))%nat ∧
  (completions st ≤ 1)%nat ∧
  ((loadedCount st < totalCount)%nat → completions st = 0%nat).
Proof.
  cbv zeta. induction outcomes as [|o outcomes IH] using rev_ind.
  - simpl. unfold totalCount. simpl. lia.
  - rewrite foldl_snoc, filter_app, !length_app.
    destruct IH as (Hc & H1 & H0).
    set (st := foldl loadStep (mkLoadState 0 0) outcomes) in *.
    destruct o.
    + rewrite filter_cons_True by reflexivity. simpl.
      destruct (decide _) as [E|E]; simpl.
      * split; [lia|]. split; [rewrite H0; lia|]. lia.
      * split; [lia|]. split; [lia|]. intros H. apply H0. lia.
    + rewrite filter_cons_False by discriminate. simpl.
      destruct (decide _) as [E|E]; simpl.
      * split; [lia|]. split; [rewrite H0; lia|]. lia.
      * split; [lia|]. split; [lia|]. intros H. apply H0. lia.
Qed.

(** X23: the completion step of the animation loading runs at most
    once.  A failed existence check counts twice, so the count after all
    outcomes is their number plus the number of failed checks.  When no
    check fails the completion runs with the 14th outcome and not
    before; when a check fails among the 14, the completion does not run
    with the last outcome: either it ran earlier, before every animation
    was processed, or it never runs. *)
Theorem loading_completion (outcomes : list LoadOutcome) (final : LoadOutcome) :
  let run := foldl loadStep (mkLoadState 0 0) in
  (completions (run outcomes) ≤ 1)%nat ∧
  loadedCount (run outcomes)
  = (length outcomes
     + length (filter (fun o => o = FetchFailed) outcomes))%nat ∧
  (Forall (fun o => o = Processed) (outcomes ++ [final]) →
   completions (run (outcomes ++ [final]))
   = (if decide (length (outcomes ++ [final]) = 14%nat) then 1%nat
      else completions (run outcomes))) ∧
  (length (outcomes ++ [final]) = 14%nat →
   FetchFailed ∈ outcomes ++ [final] →
   completions (run (outcomes ++ [final])) = completions (run outcomes)).
Proof.
  cbv zeta.
  pose proof (loadStep_count outcomes) as H. cbv zeta in H.
  destruct H as (Hc & H1 & H0).
  split; [exact H1|]. split; [exact Hc|]. split.
  - intros Hall. apply Forall_app in Hall as [Ho Hf].
    rewrite Forall_singleton in Hf. subst final.
    rewrite foldl_snoc, length_app. simpl.
    assert (Hz : length (filter (fun o => o = FetchFailed) outcomes) = 0%nat).
    { clear -Ho. induction Ho as [|o l Hp _ IH]; [reflexivity|].
      subst o. rewrite filter_cons_False by discriminate. exact IH. }
    rewrite Hc, Hz. unfold totalCount. simpl (length animKeys).
    destruct (decide (S (length outcomes + 0) = 14)%nat) as [E|E];
      destruct (decide (length outcomes + 1 = 14)%nat) as [E'|E'];
      try lia.
    rewrite H0; [reflexivity|]. unfold totalCount. simpl. lia.
  - intros Hlen Hin. rewrite length_app in Hlen. simpl in Hlen.
    rewrite foldl_snoc.
    assert (Hf : (1 ≤ length (filter (fun o => o = FetchFailed)
                                (outcomes ++ [final])))%nat).
    { assert (Hin' : FetchFailed ∈ filter (fun o => o = FetchFailed)
                                     (outcomes ++ [final])).
      { apply list_elem_of_filter. split; [reflexivity|exact Hin]. }
      destruct (filter _ (outcomes ++ [final])); [|simpl; lia].
      apply elem_of_nil in Hin'. destruct Hin'. }
    rewrite filter_app, length_app in Hf.
    destruct final; simpl.
    + destruct (decide _) as [E|_]; [|reflexivity].
      unfold totalCount in E. simpl in E. lia.
    + rewrite filter_cons_False in Hf by discriminate. simpl in Hf.
      destruct (decide _) as [E|_]; [|reflexivity].
      unfold totalCount in E. simpl in E. lia.
Qed.

Lemma loading_completion_witness :
  let run := foldl loadStep (mkLoadState 0 0) in
  completions (run (replicate 13 Processed ++ [Processed])) = 1%nat ∧
  completions (run (replicate 13 Processed ++ [FetchFailed]))
  = completions (run (replicate 13 Processed)) ∧
  completions (run (replicate 13 Processed ++ [FetchFailed])) = 0%nat.
Proof.
  cbv zeta.
  pose proof (loading_completion (replicate 13 Processed) Processed)
    as (_ & _ & Hok & _).
  pose proof (loading_completion (replicate 13 Processed) FetchFailed)
    as (_ & _ & _ & Hfail).
  cbv zeta in Hok, Hfail.
  split.
  - rewrite Hok; [reflexivity|]. simpl. repeat constructor.
  - split; [|reflexivity].
    apply Hfail; [reflexivity|]. apply elem_of_app. right.
    apply list_elem_of_singleton. reflexivity.
Defined.

(** ** Flight *)




(** X25: the predicted animation is a looping one exactly when the
    player is on the ground with no attack, no cast and no jump key:
    the idle, walk and run animations get [LoopRepeat] when they are
    loaded, and jump, attack and cast play once. *)
Theorem predicted_animation_loops (input : InputState) (isGrounded : bool) :
  loopsForever (determineLocalAnimation (Some input) isGrounded)
  = isGrounded && negb (Input.attack input) && negb (Input.castSpell input)
    && negb (Input.jump input).
Proof.
  destruct input as [f b l r sp j a c sq].
  destruct a, c, isGrounded, j, f, b, l, r, sp; reflexivity.
Qed.
